(** * Portfolio optimisation and risk metrics: the engine of [app.py]

    A shallow embedding of the five helper functions of [app.py]
    ([calculate_returns], [portfolio_performance], [negative_sharpe_ratio],
    [max_sharpe_ratio], [calculate_var]) and of the top-level statements that
    use them, together with the pandas, numpy and scipy operations they call.

    Numbers.  The program computes with IEEE-754 doubles.  Here a double is
    either an exact real number or one of the three special values
    [+inf], [-inf], [NaN]; the arithmetic on the special values is the
    IEEE one, the arithmetic on finite values is exact (rounding is not
    modelled, and zero carries no sign: a zero divisor acts as [+0.0]).
    Where rounding decides a property, the Sharpe ratio is also given with
    a rounding function and on binary64 floats.

    Tables.  A pandas [DataFrame] is a list of columns, one per asset, each
    a list of values indexed by date. *)

From Stdlib Require Import PrimFloat.
From Stdlib Require Import Reals Lra Lia List Bool Arith ZArith.
From Stdlib Require Import Permutation Sorted.
Import ListNotations.

Set Warnings "-inexact-float".

Open Scope R_scope.

(** ** Doubles: exact reals with the IEEE special values *)

Inductive fval : Type :=
| Fin (x : R)
| PInf
| NInf
| NaN.

(** Three-way case on the sign of a real. *)
Definition by_sign {A : Type} (x : R) (neg zero pos : A) : A :=
  match total_order_T x 0 with
  | inleft (left _) => neg
  | inleft (right _) => zero
  | inright _ => pos
  end.

Definition fneg (a : fval) : fval :=
  match a with
  | Fin x => Fin (- x)
  | PInf => NInf
  | NInf => PInf
  | NaN => NaN
  end.

Definition fadd (a b : fval) : fval :=
  match a, b with
  | NaN, _ | _, NaN => NaN
  | Fin x, Fin y => Fin (x + y)
  | PInf, NInf | NInf, PInf => NaN
  | PInf, _ | _, PInf => PInf
  | NInf, _ | _, NInf => NInf
  end.

Definition fsub (a b : fval) : fval := fadd a (fneg b).

Definition fmul (a b : fval) : fval :=
  match a, b with
  | NaN, _ | _, NaN => NaN
  | Fin x, Fin y => Fin (x * y)
  | Fin x, PInf | PInf, Fin x => by_sign x NInf NaN PInf
  | Fin x, NInf | NInf, Fin x => by_sign x PInf NaN NInf
  | PInf, PInf | NInf, NInf => PInf
  | PInf, NInf | NInf, PInf => NInf
  end.

(** numpy's true division of two doubles: dividing by zero raises nothing,
    it yields an infinity of the sign of the dividend, or [NaN] for [0/0]. *)
Definition fdiv (a b : fval) : fval :=
  match a, b with
  | NaN, _ | _, NaN => NaN
  | Fin x, Fin y => by_sign y (Fin (x / y)) (by_sign x NInf NaN PInf) (Fin (x / y))
  | Fin _, PInf | Fin _, NInf => Fin 0
  | PInf, Fin y => by_sign y NInf PInf PInf
  | NInf, Fin y => by_sign y PInf NInf NInf
  | PInf, PInf | PInf, NInf | NInf, PInf | NInf, NInf => NaN
  end.

Definition fsqrt (a : fval) : fval :=
  match a with
  | Fin x => by_sign x NaN (Fin 0) (Fin (sqrt x))
  | PInf => PInf
  | NInf | NaN => NaN
  end.

(** The comparison [a < b] of doubles: false as soon as a [NaN] is involved. *)
Definition flt (a b : fval) : Prop :=
  match a, b with
  | Fin x, Fin y => x < y
  | NInf, Fin _ | NInf, PInf | Fin _, PInf => True
  | _, _ => False
  end.

Definition notna (a : fval) : bool :=
  match a with NaN => false | _ => true end.

(** ** Exceptions *)

(** The Python exceptions the modelled code paths can raise. *)
Inductive exn : Type :=
| ZeroDivisionError
| ValueError.

Inductive result (A : Type) : Type :=
| Ok (a : A)
| Raise (e : exn).

Arguments Ok {A} a.
Arguments Raise {A} e.

Definition bind {A B : Type} (m : result A) (k : A -> result B) : result B :=
  match m with
  | Ok a => k a
  | Raise e => Raise e
  end.

Notation "x <- m ;; k" := (bind m (fun x => k))
  (at level 61, m at next level, right associativity).
Notation "' p <- m ;; k" := (bind m (fun x => match x with p => k end))
  (at level 61, p pattern, m at next level, right associativity).

Definition raises {A : Type} (m : result A) : Prop := exists e, m = Raise e.

(** ** Tables *)

Definition frame (A : Type) : Type := list (list A).

(** Number of dates (rows): the length of the columns.  A table without
    columns carries no dates here. *)
Definition nobs {A : Type} (df : frame A) : nat :=
  match df with
  | [] => 0%nat
  | c :: _ => length c
  end.

(** Every column covers the same dates. *)
Definition rectangular {A : Type} (df : frame A) : Prop :=
  forall c, In c df -> length c = nobs df.

Fixpoint map2 {A B C : Type} (f : A -> B -> C) (l : list A) (m : list B) : list C :=
  match l, m with
  | a :: l', b :: m' => f a b :: map2 f l' m'
  | _, _ => []
  end.

Definition Rsum (l : list R) : R := fold_right Rplus 0 l.

(** [np.sum] of an array of doubles. *)
Definition fsum (l : list fval) : fval := fold_right fadd (Fin 0) l.

(** [np.sum] of a pandas [Series] is [Series.sum()], which leaves the
    [NaN] entries out ([skipna=True]). *)
Definition nansum (l : list fval) : fval :=
  fsum (filter notna l).

(** ** pandas: [pct_change] and [dropna] *)

(** A price is a real number or missing ([NaN] in the table). *)
Definition price : Type := option R.

Definition of_price (p : price) : fval :=
  match p with
  | Some x => Fin x
  | None => NaN
  end.

(** [fill_method] of [DataFrame.pct_change]: [Some Pad] forward-fills
    missing values before the change is computed, [None] does not. *)
Inductive fill : Type := Pad.

(** Forward fill of one column: a missing value takes the last value seen
    before it; leading missing values stay missing. *)
Fixpoint ffill_from (last : price) (col : list price) : list price :=
  match col with
  | [] => []
  | c :: t =>
      let v := match c with Some _ => c | None => last end in
      v :: ffill_from v t
  end.

Definition ffill (col : list price) : list price := ffill_from None col.

(** [Series.shift(1)]: every value moves one date later, the first date
    becomes [NaN] and the last value falls off. *)
Definition shift (col : list fval) : list fval :=
  match col with
  | [] => []
  | _ :: _ => NaN :: removelast col
  end.

(** The data [pct_change] works on. *)
Definition filled (fill_method : option fill) (col : list price) : list price :=
  match fill_method with
  | Some Pad => ffill col
  | None => col
  end.

(** pandas computes [data / data.shift(1) - 1] on the (filled) data. *)
Definition pct_change_col (fill_method : option fill) (col : list price) : list fval :=
  let data := map of_price (filled fill_method col) in
  map2 (fun p q => fsub (fdiv p q) (Fin 1)) data (shift data).

Definition pct_change (fill_method : option fill) (prices : frame price) : frame fval :=
  map (pct_change_col fill_method) prices.

(** Dates at which every column holds a value ([how='any'] of [dropna]). *)
Definition complete_rows (df : frame fval) : list bool :=
  match df with
  | [] => []
  | c :: cs => fold_left (fun m c' => map2 andb m (map notna c')) cs (map notna c)
  end.

Fixpoint select {A : Type} (keep : list bool) (col : list A) : list A :=
  match keep, col with
  | b :: keep', x :: col' => if b then x :: select keep' col' else select keep' col'
  | _, _ => []
  end.

Definition dropna (df : frame fval) : frame fval :=
  map (select (complete_rows df)) df.

(** ** pandas and numpy: means, covariance, products, quantiles *)

(** A table of returns handed to the statistics holds finite values only. *)
Definition Rmean (col : list R) : R := Rsum col / INR (length col).

(** [Series.mean()]: the arithmetic mean, [NaN] for an empty column. *)
Definition mean (col : list R) : fval :=
  fdiv (Fin (Rsum col)) (Fin (INR (length col))).

Definition centered (col : list R) : list R :=
  map (fun x => x - Rmean col) col.

Definition Rdot (a b : list R) : R := Rsum (map2 Rmult a b).

(** [DataFrame.cov()] on a table without missing values is
    [np.cov(mat.T, ddof=1)]: the products of the centred columns are
    multiplied by [1 / fact], where [fact = N - 1], replaced by [0] when it
    is not positive. *)
Definition cov (returns : frame R) : frame fval :=
  let fact := INR (nobs returns - 1) in
  map (fun ci =>
         map (fun cj => fmul (Fin (Rdot (centered ci) (centered cj)))
                             (fdiv (Fin 1) (Fin fact)))
             returns)
      returns.

(** A table times a scalar. *)
Definition scale (m : frame fval) (k : R) : frame fval :=
  map (map (fun c => fmul c (Fin k))) m.

(** [np.dot] of two vectors, and of a matrix and a vector. *)
Definition dot (a b : list fval) : fval := fsum (map2 fmul a b).

Definition mat_vec (m : frame fval) (v : list fval) : list fval :=
  map (fun row => dot row v) m.

(** Insertion into a sorted list, and the sort it gives. *)
Fixpoint insert (x : R) (l : list R) : list R :=
  match l with
  | [] => [x]
  | y :: t => if Rle_dec x y then x :: l else y :: insert x t
  end.

Definition np_sort (l : list R) : list R := fold_right insert [] l.

Definition lerp (a b t : R) : R := a + (b - a) * t.

(** [np.percentile(col, 100 * q, method='linear')], which pandas calls for
    [interpolation='linear']: the virtual index [q * (n - 1)] is split into
    its floor and its fractional part, the two neighbouring indices are
    clipped to the array, and the two order statistics are interpolated. *)
Definition quantile_linear (q : R) (col : list R) : fval :=
  match col with
  | [] => NaN
  | _ :: _ =>
      let arr := np_sort col in
      let n := length arr in
      let virtual_index := q * (INR n - 1) in
      let previous := Z.to_nat (Zfloor virtual_index) in
      let next := (previous + 1)%nat in
      let gamma := virtual_index - IZR (Zfloor virtual_index) in
      Fin (lerp (nth (Nat.min previous (n - 1)) arr 0)
                (nth (Nat.min next (n - 1)) arr 0) gamma)
  end.

(** [DataFrame.quantile(q, axis=0)]: pandas first validates [q]
    ([if not 0 <= q <= 1: raise ValueError]), then takes the quantile of
    every column. *)
Definition quantile (returns : frame R) (q : R) : result (list fval) :=
  if Rle_dec 0 q then
    if Rle_dec q 1 then Ok (map (quantile_linear q) returns)
    else Raise ValueError
  else Raise ValueError.

(** ** scipy: the result of [minimize] *)

Record OptimizeResult : Type := {
  x : list R;          (* the last iterate *)
  success : bool;      (* whether the solver converged *)
  status : Z           (* solver status code, 0 on success *)
}.

Inductive constraint_type : Type := eq_constraint | ineq_constraint.

Record constraint : Type := {
  type : constraint_type;
  fun_ : list R -> R
}.

Inductive method : Type := SLSQP.

(** ** The program *)

Section App.

(** The default of [fill_method] in [DataFrame.pct_change] depends on the
    installed pandas ([Some Pad] before 3.0, [None] from 3.0 on); the
    program does not pin it. *)
Variable default_fill_method : option fill.

(** [def calculate_returns(prices): return prices.pct_change().dropna()] *)
Definition calculate_returns (prices : frame price) : result (frame fval) :=
  Ok (dropna (pct_change default_fill_method prices)).

(** [def portfolio_performance(weights, returns)]: the product of the
    column means and the weights, and the two [np.dot], need the weights to
    be as many as the columns; numpy and pandas raise [ValueError] otherwise.
    The product of line 16 is a pandas [Series], so its [np.sum] skips
    [NaN]; the [np.dot] of line 17 work on arrays and do not. *)
Definition portfolio_performance (weights : list R) (returns : frame R)
  : result (fval * fval) :=
  if (length weights =? length returns)%nat then
    let portfolio_return :=
      fmul (nansum (map2 fmul (map mean returns) (map Fin weights))) (Fin 252) in
    let portfolio_std :=
      fsqrt (dot (map Fin weights)
                 (mat_vec (scale (cov returns) 252) (map Fin weights))) in
    Ok (portfolio_return, portfolio_std)
  else Raise ValueError.

(** [def negative_sharpe_ratio(weights, returns, risk_free_rate=0.01)]:
    the optional argument is [None] when the caller leaves it out. *)
Definition negative_sharpe_ratio (weights : list R) (returns : frame R)
    (risk_free_rate : option R) : result fval :=
  let risk_free_rate :=
    match risk_free_rate with Some r => r | None => 0.01 end in
  '(p_return, p_std) <- portfolio_performance weights returns ;;
  Ok (fdiv (fneg (fsub p_return (Fin risk_free_rate))) p_std).

(** The SLSQP solver of scipy is not part of the program: it is a
    parameter, taking the objective, the starting point, the bounds and the
    constraint. *)
Variable slsqp :
  (list R -> result fval) -> list R -> list (R * R) -> constraint -> OptimizeResult.

(** [scipy.optimize.minimize(fun, x0, args, method, bounds, constraints)]
    evaluates the objective as [fun(x, *args)]: with [args = (returns,)] a
    third parameter of [fun] is left to its default. *)
Definition minimize
    (objective : list R -> frame R -> option R -> result fval)
    (x0 : list R) (args : frame R) (m : method)
    (bounds : list (R * R)) (constraints : constraint) : OptimizeResult :=
  match m with
  | SLSQP => slsqp (fun w => objective w args None) x0 bounds constraints
  end.

(** [def max_sharpe_ratio(returns)]; [1. / num_assets] is a division of
    Python floats, which raises for [num_assets = 0]. *)
Definition max_sharpe_ratio (returns : frame R) : result OptimizeResult :=
  let num_assets := length returns in
  let args := returns in
  let constraints := {| type := eq_constraint; fun_ := fun w => Rsum w - 1 |} in
  let bounds := repeat (0, 1) num_assets in
  x0 <- (if (num_assets =? 0)%nat then Raise ZeroDivisionError
         else Ok (repeat (1 / INR num_assets) num_assets)) ;;
  let result := minimize negative_sharpe_ratio x0 args SLSQP bounds constraints in
  Ok result.

(** [def calculate_var(returns, confidence_level=0.05)] *)
Definition calculate_var (returns : frame R) (confidence_level : option R)
  : result (list fval) :=
  let confidence_level :=
    match confidence_level with Some q => q | None => 0.05 end in
  quantile returns confidence_level.

(** *** The top-level statements *)

(** What the dashboard is configured with: the global [risk_free_rate]
    (line 46) and the value of the slider, in percent (line 142). *)
Record Config : Type := {
  risk_free_rate : R;
  risk_free_rate_slider : R
}.

(** [(p_return - rate) / p_std], the ratio of lines 54 and 146. *)
Definition sharpe_ratio (p_return p_std : fval) (rate : R) : fval :=
  fdiv (fsub p_return (Fin rate)) p_std.

(** Lines 49 and 50. *)
Definition optimal_portfolio (cfg : Config) (returns : frame R)
  : result OptimizeResult :=
  max_sharpe_ratio returns.

Definition optimal_weights (cfg : Config) (returns : frame R) : result (list R) :=
  optimal_portfolio <- optimal_portfolio cfg returns ;;
  Ok (x optimal_portfolio).

(** Lines 53 and 54. *)
Definition opt_sharpe (cfg : Config) (returns : frame R) : result fval :=
  optimal_weights <- optimal_weights cfg returns ;;
  '(opt_return, opt_std) <- portfolio_performance optimal_weights returns ;;
  Ok (sharpe_ratio opt_return opt_std (risk_free_rate cfg)).

(** Line 57. *)
Definition VaR_95 (returns : frame R) : result (list fval) :=
  calculate_var returns (Some 0.05).

(** Line 146. *)
Definition opt_sharpe_adjusted (cfg : Config) (returns : frame R) : result fval :=
  optimal_weights <- optimal_weights cfg returns ;;
  '(opt_return, opt_std) <- portfolio_performance optimal_weights returns ;;
  Ok (sharpe_ratio opt_return opt_std (risk_free_rate_slider cfg / 100)).

End App.

(** ** The formulas of the specification *)

(** Section 4.2 and 4.4 of the specification state the statistics with
    indices: [returns[t,i]] is the return of asset [i] at date [t]. *)
Module Spec.

Definition entry (returns : frame R) (t i : nat) : R :=
  nth t (nth i returns []) 0.

(** Sums over [0 <= i < n]. *)
Definition Rbig (n : nat) (f : nat -> R) : R := Rsum (map f (seq 0 n)).
Definition fbig (n : nat) (f : nat -> fval) : fval := fsum (map f (seq 0 n)).

Definition annualizationFactor : R := 252.

(** [mean(returns[:,i])]. *)
Definition column_mean (returns : frame R) (i : nat) : fval :=
  let N := nobs returns in
  fdiv (Fin (Rbig N (fun t => entry returns t i))) (Fin (INR N)).

(** The sample covariance of assets [i] and [j], with the N-1 denominator. *)
Definition covarianceMatrix (returns : frame R) (i j : nat) : fval :=
  let N := nobs returns in
  let m k := Rbig N (fun t => entry returns t k) / INR N in
  fdiv (Fin (Rbig N (fun t => (entry returns t i - m i) * (entry returns t j - m j))))
       (Fin (INR N - 1)).

(** [sum(weights[i] * mean(returns[:,i])) * annualizationFactor]. *)
Definition annualizedReturn (weights : list R) (returns : frame R) : fval :=
  fmul (fbig (length returns)
          (fun i => fmul (Fin (nth i weights 0)) (column_mean returns i)))
       (Fin annualizationFactor).

(** [sqrt(weights^T * (covarianceMatrix(returns) * annualizationFactor) * weights)]. *)
Definition annualizedVolatility (weights : list R) (returns : frame R) : fval :=
  let k := length returns in
  fsqrt (fbig k (fun i =>
           fmul (Fin (nth i weights 0))
                (fbig k (fun j =>
                   fmul (fmul (covarianceMatrix returns i j) (Fin annualizationFactor))
                        (Fin (nth j weights 0)))))).

(** Linear interpolation between the order statistics [r_0 <= ... <= r_(n-1)]:
    with [h = q * (n - 1)] and [j = floor h], the value
    [r_j + (h - j) * (r_(j+1) - r_j)]. *)
Definition interpolated_quantile (q : R) (r : list R) : R :=
  let h := q * (INR (length r) - 1) in
  let j := Z.to_nat (Zfloor h) in
  nth j r 0 + (h - IZR (Zfloor h)) * (nth (j + 1) r 0 - nth j r 0).

End Spec.

(** Simple returns of a fully defined price column [p_0, ..., p_(n-1)]:
    the [n - 1] values [(p_t - p_(t-1)) / p_(t-1)], for [t = 1 .. n-1]. *)
Definition simple_returns (ps : list R) : list fval :=
  match ps with
  | [] => []
  | _ :: rest => map2 (fun p q => fdiv (Fin (p - q)) (Fin q)) rest ps
  end.

(** No two consecutive prices of the column are both zero. *)
Fixpoint no_double_zero (ps : list R) : Prop :=
  match ps with
  | p :: (q :: _) as rest => ~ (p = 0 /\ q = 0) /\ no_double_zero rest
  | _ => True
  end.

(** A solver outcome that reports failure: the iteration limit of SLSQP
    (status 9), the starting point handed back as last iterate. *)
Definition iteration_limit_reached
    (objective : list R -> result fval) (x0 : list R)
    (bounds : list (R * R)) (c : constraint) : OptimizeResult :=
  {| x := x0; success := false; status := 9 |}.

(** ** The performance curve and the assessment of the metrics *)

(** [DataFrame.dot(other)] with a vector: the matrix product of the table
    (dates by assets) and the vector, one value per date; pandas raises
    [ValueError] when the vector does not have one entry per column. *)
Definition DataFrame_dot (df : frame R) (other : list R) : result (list R) :=
  if (length df =? length other)%nat then
    Ok (map (fun t => Rsum (map2 (fun col w => nth t col 0 * w) df other))
            (seq 0 (nobs df)))
  else Raise ValueError.

(** [Series.cumprod()]: the running product. *)
Fixpoint cumprod_from (acc : R) (l : list R) : list R :=
  match l with
  | [] => []
  | a :: t => acc * a :: cumprod_from (acc * a) t
  end.

Definition cumprod (l : list R) : list R := cumprod_from 1 l.

(** Line 94: [portfolio_returns = returns.dot(optimal_weights)]. *)
Definition portfolio_returns (returns : frame R) (optimal_weights : list R)
  : result (list R) :=
  DataFrame_dot returns optimal_weights.

(** Line 95: [cumulative_returns = (1 + portfolio_returns).cumprod()]. *)
Definition cumulative_returns (returns : frame R) (optimal_weights : list R)
  : result (list R) :=
  portfolio_returns <- portfolio_returns returns optimal_weights ;;
  Ok (cumprod (map (fun r => 1 + r) portfolio_returns)).

(** The comparisons [a > 0] and [a < 0] of a double, false on [NaN]. *)
Definition fpositive (a : fval) : bool :=
  match a with
  | Fin x => if Rlt_dec 0 x then true else false
  | PInf => true
  | NInf | NaN => false
  end.

Definition fnegative (a : fval) : bool :=
  match a with
  | Fin x => if Rlt_dec x 0 then true else false
  | NInf => true
  | PInf | NaN => false
  end.

(** Lines 121 to 124: which assessment of the metrics is written, if any. *)
Inductive assessment : Type := positive_results | negative_results.

Definition metrics_assessment (opt_return opt_sharpe : fval) : option assessment :=
  if fpositive opt_return && fpositive opt_sharpe then Some positive_results
  else if fnegative opt_return || fnegative opt_sharpe then Some negative_results
  else None.

(** ** Vectors, for the proofs *)

Definition vadd (a b : list R) : list R := map2 Rplus a b.
Definition vscale (k : R) (a : list R) : list R := map (Rmult k) a.

(** The combination [sum_i w_i * col_i] of columns of [N] dates. *)
Fixpoint combination (N : nat) (cols : frame R) (w : list R) : list R :=
  match cols, w with
  | c :: cs, k :: ws => vadd (vscale k c) (combination N cs ws)
  | _, _ => repeat 0 N
  end.

(** The sample variance (N-1 denominator) of a series. *)
Definition sample_variance (l : list R) : R :=
  Rdot (centered l) (centered l) / INR (length l - 1).

(** The prices of an asset in another unit. *)
Definition rescale (c : R) (col : list price) : list price :=
  map (option_map (Rmult c)) col.

(** The interpolation of [quantile_linear] at the virtual index [h] of a
    sorted array. *)
Definition interpolate (arr : list R) (h : R) : R :=
  let previous := Z.to_nat (Zfloor h) in
  lerp (nth (Nat.min previous (length arr - 1)) arr 0)
       (nth (Nat.min (previous + 1) (length arr - 1)) arr 0)
       (h - IZR (Zfloor h)).

(** ** Weights within tolerance *)

(** [|sum(weights) - 1| < 1e-6] and [min(weights) >= -1e-9]. *)
Definition valid_weights (weights : list R) : Prop :=
  Rabs (Rsum weights - 1) < 1e-6 /\ Forall (fun w => -1e-9 <= w) weights.

(** A solver outcome off the constraint: an unconverged last iterate whose
    components sum to 2. *)
Definition off_constraint_iterate
    (objective : list R -> result fval) (x0 : list R)
    (bounds : list (R * R)) (c : constraint) : OptimizeResult :=
  {| x := [1; 0; 1]; success := false; status := 9 |}.

(** ** The ratio with rounding *)

(** The finite results of the operations on doubles are the exact results
    rounded to the nearest double; [rnd] stands for that rounding, a
    monotone function on the reals.  [(p_return - rate) / p_std] of lines
    54 and 146, and [-(p_return - rate) / p_std] of line 22 (the negation
    of a double is exact). *)
Definition sharpe_ratio_rounded (rnd : R -> R) (p_return p_std rate : R) : R :=
  rnd (rnd (p_return - rate) / p_std).

Definition negative_sharpe_ratio_rounded (rnd : R -> R) (p_return p_std rate : R)
  : R :=
  rnd (- rnd (p_return - rate) / p_std).

(** A rounding for the examples: to the integer below. *)
Definition round_down (a : R) : R := IZR (Zfloor a).

(** ** The ratio in binary64 *)

(** [(p_return - rate) / p_std] of lines 54 and 146 on IEEE-754 doubles,
    with the rounding of each operation. *)
Definition sharpe_ratio_double (p_return p_std rate : float) : float :=
  ((p_return - rate) / p_std)%float.

(** * Properties *)

(** ** Arithmetic of doubles *)

Lemma by_sign_neg {A : Type} (x : R) (a b c : A) : x < 0 -> by_sign x a b c = a.
Proof.
  intros H. unfold by_sign. destruct (total_order_T x 0) as [[?|?]|?]; trivial; lra.
Qed.

Lemma by_sign_zero {A : Type} (x : R) (a b c : A) : x = 0 -> by_sign x a b c = b.
Proof.
  intros H. unfold by_sign. destruct (total_order_T x 0) as [[?|?]|?]; trivial; lra.
Qed.

Lemma by_sign_pos {A : Type} (x : R) (a b c : A) : 0 < x -> by_sign x a b c = c.
Proof.
  intros H. unfold by_sign. destruct (total_order_T x 0) as [[?|?]|?]; trivial; lra.
Qed.

(** Case analysis on every sign test of the goal. *)
Ltac sign_cases :=
  unfold by_sign;
  repeat match goal with
         | |- context [total_order_T ?x 0] =>
             destruct (total_order_T x 0) as [[?|?]|?]
         end;
  try reflexivity; try (exfalso; lra); try (exfalso; nra).

Lemma fdiv_fin (a b : R) : b <> 0 -> fdiv (Fin a) (Fin b) = Fin (a / b).
Proof. intros H. simpl. sign_cases. Qed.

Lemma fmul_comm (a b : fval) : fmul a b = fmul b a.
Proof.
  destruct a, b; simpl; trivial. f_equal; ring.
Qed.

(** Multiplying by the reciprocal is dividing, also by zero. *)
Lemma fmul_reciprocal (a d : R) :
  fmul (Fin a) (fdiv (Fin 1) (Fin d)) = fdiv (Fin a) (Fin d).
Proof.
  destruct (total_order_T d 0) as [[Hd|Hd]|Hd].
  - rewrite !fdiv_fin by lra. simpl. f_equal. field. lra.
  - subst d. simpl. rewrite (by_sign_zero 0) by reflexivity.
    rewrite (by_sign_pos 1) by lra. rewrite (by_sign_zero 0) by reflexivity.
    reflexivity.
  - rewrite !fdiv_fin by lra. simpl. f_equal. field. lra.
Qed.

(** [p / q - 1] and [(p - q) / q] are the same double. *)
Lemma pct_formula (p q : price) :
  fsub (fdiv (of_price p) (of_price q)) (Fin 1)
  = fdiv (fsub (of_price p) (of_price q)) (of_price q).
Proof.
  destruct p as [p|], q as [q|]; simpl; trivial.
  unfold by_sign.
  destruct (total_order_T q 0) as [[?|?]|?]; simpl.
  - f_equal. field. lra.
  - subst q. replace (p + - 0) with p by ring.
    destruct (total_order_T p 0) as [[?|?]|?]; reflexivity.
  - f_equal. field. lra.
Qed.

(** ** Lists and tables *)

Lemma map2_length {A B C : Type} (f : A -> B -> C) (l : list A) (m : list B) :
  length (map2 f l m) = Nat.min (length l) (length m).
Proof.
  revert m. induction l as [|a l IH]; intros [|b m]; simpl; auto.
Qed.

Lemma nth_map2 {A B C : Type} (f : A -> B -> C) (l : list A) (m : list B)
    (t : nat) (da : A) (db : B) (dc : C) :
  (t < length l)%nat -> (t < length m)%nat ->
  nth t (map2 f l m) dc = f (nth t l da) (nth t m db).
Proof.
  revert m t. induction l as [|a l IH]; intros [|b m] [|t]; simpl; intros; try lia; auto.
  apply IH; lia.
Qed.

Lemma nth_map2_andb (l m : list bool) (t : nat) :
  nth t (map2 andb l m) false = nth t l false && nth t m false.
Proof.
  revert m t. induction l as [|a l IH]; intros [|b m] [|t]; simpl; auto.
  - destruct a; reflexivity.
  - destruct (nth t l false); reflexivity.
Qed.

Lemma nth_map_notna (c : list fval) (t : nat) :
  nth t (map notna c) false = notna (nth t c NaN).
Proof. exact (map_nth notna c NaN t). Qed.

Lemma map2_removelast {A B C : Type} (f : A -> B -> C) (l : list A) (b : B) (m : list B) :
  length l = length m -> map2 f l (removelast (b :: m)) = map2 f l (b :: m).
Proof.
  revert b m. induction l as [|a l IH]; intros b [|b' m] H; simpl in *; try lia; auto.
  f_equal. apply IH. lia.
Qed.

Lemma fold_left_fixed {A B : Type} (step : A -> B -> A) (cs : list B) (m : A) :
  (forall c, In c cs -> step m c = m) -> fold_left step cs m = m.
Proof.
  induction cs as [|c cs IH]; simpl; intros H; auto.
  rewrite (H c) by auto. apply IH. auto.
Qed.

Lemma select_none {A : Type} (keep : list bool) (col : list A) :
  (forall t, nth t keep false = false) -> select keep col = [].
Proof.
  revert col. induction keep as [|b keep IH]; intros [|a col] H; simpl; auto.
  rewrite (H 0%nat : b = false). apply IH. intros t. exact (H (S t)).
Qed.

Lemma select_all {A : Type} (col : list A) :
  select (repeat true (length col)) col = col.
Proof. induction col; simpl; congruence. Qed.

Lemma map_notna_all (l : list fval) :
  Forall (fun v => notna v = true) l -> map notna l = repeat true (length l).
Proof. induction 1; simpl; congruence. Qed.

Lemma map2_andb_diag (m : list bool) : map2 andb m m = m.
Proof. induction m as [|b m IH]; simpl; [|destruct b; simpl]; congruence. Qed.

(** A date is kept by [dropna] exactly when every column holds a value. *)
Lemma complete_rows_spec (df : frame fval) (t : nat) :
  nth t (complete_rows df) false = true <->
  df <> [] /\ forall c, In c df -> notna (nth t c NaN) = true.
Proof.
  destruct df as [|c cs]; simpl.
  - destruct t; split; [discriminate | intros [H _]; congruence
                       | discriminate | intros [H _]; congruence].
  - assert (G : forall cs m,
               nth t (fold_left (fun m c' => map2 andb m (map notna c')) cs m) false = true
               <-> nth t m false = true /\ forall c', In c' cs -> notna (nth t c' NaN) = true).
    { clear. induction cs as [|c' cs IH]; intros m; simpl.
      - tauto.
      - rewrite IH, nth_map2_andb, nth_map_notna, andb_true_iff.
        split.
        + intros [[H1 H2] H3]. split; auto. intros c0 [<-|H0]; auto.
        + intros [H1 H2]. auto. }
    rewrite G, nth_map_notna. split.
    + intros [H1 H2]. split; [discriminate|]. intros c0 [<-|H0]; auto.
    + intros [_ H]. auto.
Qed.

(** ** The return calculator *)

Lemma ffill_from_defined (last : price) (ps : list R) :
  ffill_from last (map Some ps) = map Some ps.
Proof.
  revert last. induction ps as [|p ps IH]; intros last; simpl; [|rewrite IH]; reflexivity.
Qed.

Lemma ffill_from_length (last : price) (col : list price) :
  length (ffill_from last col) = length col.
Proof.
  revert last. induction col as [|c col IH]; intros last; simpl; [|rewrite IH]; reflexivity.
Qed.

Lemma filled_length (fm : option fill) (col : list price) :
  length (filled fm col) = length col.
Proof. destruct fm as [[]|]; simpl; [apply ffill_from_length | reflexivity]. Qed.

Lemma filled_defined (fm : option fill) (ps : list R) :
  filled fm (map Some ps) = map Some ps.
Proof. destruct fm as [[]|]; simpl; [apply ffill_from_defined | reflexivity]. Qed.

(** The change of the first date is undefined, the others compare a date
    with the one before. *)
Lemma pct_change_col_unfold (fm : option fill) (col : list price) :
  pct_change_col fm col =
  match map of_price (filled fm col) with
  | [] => []
  | d0 :: ds => NaN :: map2 (fun p q => fsub (fdiv p q) (Fin 1)) ds (d0 :: ds)
  end.
Proof.
  unfold pct_change_col. destruct (map of_price (filled fm col)) as [|d0 ds]; trivial.
  unfold shift. cbn [map2]. f_equal.
  - destruct d0; reflexivity.
  - apply map2_removelast. reflexivity.
Qed.

Lemma pct_change_col_length (fm : option fill) (col : list price) :
  length (pct_change_col fm col) = length col.
Proof.
  rewrite pct_change_col_unfold.
  rewrite <- (filled_length fm col), <- (length_map of_price).
  destruct (map of_price (filled fm col)) as [|d0 ds]; simpl; trivial.
  rewrite map2_length. simpl. lia.
Qed.

Lemma pct_change_col_first (fm : option fill) (col : list price) :
  nth 0 (pct_change_col fm col) NaN = NaN.
Proof.
  rewrite pct_change_col_unfold.
  destruct (map of_price (filled fm col)); reflexivity.
Qed.

Lemma pct_change_col_entry (fm : option fill) (col : list price) (t : nat) :
  (S t < length col)%nat ->
  let p := fun k => of_price (nth k (filled fm col) None) in
  nth (S t) (pct_change_col fm col) NaN = fdiv (fsub (p (S t)) (p t)) (p t).
Proof.
  intros Ht p. subst p. cbv beta.
  rewrite <- pct_formula.
  rewrite <- (filled_length fm col) in Ht.
  rewrite pct_change_col_unfold.
  rewrite <- !(map_nth of_price). cbn [of_price].
  rewrite <- (length_map of_price) in Ht.
  destruct (map of_price (filled fm col)) as [|d0 ds]; simpl in Ht; [lia|].
  cbn [nth].
  rewrite (nth_map2 _ ds (d0 :: ds) t NaN NaN NaN) by (simpl; lia).
  reflexivity.
Qed.

Lemma pct_change_col_defined (fm : option fill) (ps : list R) :
  pct_change_col fm (map Some ps) =
  match ps with
  | [] => []
  | _ :: _ => NaN :: simple_returns ps
  end.
Proof.
  rewrite pct_change_col_unfold, filled_defined.
  destruct ps as [|p0 rest]; trivial.
  cbn [map simple_returns]. f_equal.
  change (of_price (Some p0) :: map of_price (map Some rest))
    with (map of_price (map Some (p0 :: rest))).
  generalize (p0 :: rest) as m. clear.
  induction rest as [|p rest IH]; intros [|q m]; simpl; trivial.
  f_equal; [|apply IH].
  exact (pct_formula (Some p) (Some q)).
Qed.

Lemma simple_returns_length (ps : list R) :
  length (simple_returns ps) = (length ps - 1)%nat.
Proof.
  destruct ps as [|p0 rest]; simpl; trivial.
  rewrite map2_length. simpl. lia.
Qed.

Lemma simple_returns_defined (ps : list R) :
  no_double_zero ps -> Forall (fun v => notna v = true) (simple_returns ps).
Proof.
  destruct ps as [|p0 rest]; simpl; [constructor|].
  revert p0. induction rest as [|q rest IH]; intros p0 H; [constructor|].
  destruct H as [H0 H]. cbn [map2]. constructor; [|apply IH; exact H].
  simpl. unfold by_sign.
  destruct (total_order_T p0 0) as [[?|?]|?]; trivial.
  destruct (total_order_T (q - p0) 0) as [[?|?]|?]; trivial.
  exfalso. apply H0. split; lra.
Qed.

(** On fully defined prices without a double zero, [dropna] removes the
    first date and nothing else. *)
Lemma dropna_defined (fm : option fill) (cols : frame R) :
  rectangular cols -> Forall no_double_zero cols ->
  dropna (pct_change fm (map (map Some) cols)) = map simple_returns cols.
Proof.
  intros Hrect Hz. unfold dropna, pct_change. rewrite !map_map.
  destruct cols as [|c0 cs]; trivial.
  assert (Hlen : forall c, In c (c0 :: cs) -> length c = length c0) by exact Hrect.
  destruct c0 as [|p0 rest0].
  - (* no date at all *)
    apply map_ext_in. intros c Hc.
    apply Hlen in Hc. destruct c; [|discriminate].
    rewrite pct_change_col_defined. cbn [map simple_returns].
    destruct (complete_rows _); reflexivity.
  - set (n := length rest0).
    assert (Hcol : forall c, In c ((p0 :: rest0) :: cs) ->
              map notna (pct_change_col fm (map Some c)) = false :: repeat true n).
    { intros c Hc. rewrite pct_change_col_defined.
      pose proof (Hlen c Hc) as Hl. destruct c as [|p rest]; [discriminate|].
      cbn [map notna]. f_equal.
      rewrite map_notna_all.
      - rewrite simple_returns_length. simpl in Hl |- *. f_equal. subst n. lia.
      - apply simple_returns_defined. rewrite Forall_forall in Hz. auto. }
    assert (Hkeep : complete_rows (map (fun c => pct_change_col fm (map Some c))
                                       ((p0 :: rest0) :: cs))
                    = false :: repeat true n).
    { change (complete_rows (map (fun c => pct_change_col fm (map Some c))
                                 ((p0 :: rest0) :: cs)))
        with (fold_left (fun m c' => map2 andb m (map notna c'))
                (map (fun c => pct_change_col fm (map Some c)) cs)
                (map notna (pct_change_col fm (map Some (p0 :: rest0))))).
      rewrite (Hcol (p0 :: rest0)) by (left; reflexivity).
      apply fold_left_fixed. intros c Hc. rewrite in_map_iff in Hc.
      destruct Hc as [c' [<- Hc']]. rewrite (Hcol c') by (right; exact Hc').
      apply map2_andb_diag. }
    rewrite Hkeep. apply map_ext_in. intros c Hc.
    pose proof (Hlen c Hc) as Hl. rewrite pct_change_col_defined.
    destruct c as [|p rest]; [discriminate|].
    cbn [select].
    replace n with (length (simple_returns (p :: rest))).
    + apply select_all.
    + rewrite simple_returns_length. simpl in Hl |- *. subst n. lia.
Qed.

(** Forward fill repeats the value of the date before at a missing price. *)
Lemma ffill_from_missing (last : price) (col : list price) (t : nat) :
  (S t < length col)%nat -> nth (S t) col None = None ->
  nth (S t) (ffill_from last col) None = nth t (ffill_from last col) None.
Proof.
  revert last t. induction col as [|c col IH]; intros last t Hlen Hmiss;
    [simpl in Hlen; lia|].
  cbn [ffill_from]. destruct t as [|t].
  - destruct col as [|c' col]; [simpl in Hlen; lia|].
    simpl in Hmiss. subst c'. reflexivity.
  - cbn [nth]. apply IH; [simpl in Hlen; lia | exact Hmiss].
Qed.

(** With forward fill a missing price that follows a price other than zero
    gives the change 0. *)
Lemma pct_change_col_padded (col : list price) (t : nat) (v : R) :
  (S t < length col)%nat -> nth (S t) col None = None ->
  nth t (filled (Some Pad) col) None = Some v -> v <> 0 ->
  nth (S t) (pct_change_col (Some Pad) col) NaN = Fin 0.
Proof.
  intros Hlen Hmiss Hprev Hv.
  rewrite (pct_change_col_entry (Some Pad) col t Hlen). cbv beta.
  unfold filled in *. unfold ffill in *.
  rewrite (ffill_from_missing None col t Hlen Hmiss), Hprev.
  cbn [of_price fsub fneg fadd]. rewrite fdiv_fin by exact Hv.
  f_equal. field. exact Hv.
Qed.

(** Without fill a missing price leaves the change of its date and of the
    next date undefined. *)
Lemma pct_change_col_missing (col : list price) (t : nat) :
  (S t < length col)%nat ->
  nth (S t) col None = None \/ nth t col None = None ->
  nth (S t) (pct_change_col None col) NaN = NaN.
Proof.
  intros Hlen Hmiss.
  rewrite (pct_change_col_entry None col t Hlen). cbv beta. unfold filled.
  destruct Hmiss as [-> | ->]; cbn [of_price].
  - reflexivity.
  - destruct (of_price (nth (S t) col None)); reflexivity.
Qed.

(** C2, as amended.  [calculate_returns] raises nothing.  The change of an
    asset at a date [t >= 1] is [(p[t] - p[t-1]) / p[t-1]], where [p] is the
    price column after the default fill of [pct_change]: the column itself
    when pandas does not fill, and with forward fill the column in which a
    missing price has taken the last price before it, so that the date of
    a missing price following a price other than zero is kept with the
    return 0 and is not dropped.  The dates removed, for all assets at
    once, are exactly those at which the change of some asset is undefined:
    the first date, a change [0/0], a price still missing (without fill,
    the date of a missing price and the next one).  A fully defined price
    series of [n] dates in which no asset has a zero price on two
    consecutive dates yields exactly the [n - 1] rows of the changes
    [(price[t] - price[t-1]) / price[t-1]]. *)
Theorem calculate_returns_rows (fm : option fill) (prices : frame price) :
  (exists keep,
      calculate_returns fm prices = Ok (map (select keep) (pct_change fm prices))
      /\ forall t, nth t keep false = true <->
                   prices <> [] /\
                   forall col, In col (pct_change fm prices) ->
                               notna (nth t col NaN) = true)
  /\ (forall col t, In col prices -> (S t < length col)%nat ->
        let p := fun k => of_price (nth k (filled fm col) None) in
        nth (S t) (pct_change_col fm col) NaN = fdiv (fsub (p (S t)) (p t)) (p t))
  /\ (forall cols : frame R,
        prices = map (map Some) cols -> rectangular cols ->
        Forall no_double_zero cols ->
        calculate_returns fm prices = Ok (map simple_returns cols)
        /\ forall c, In c (map simple_returns cols) ->
                     length c = (nobs cols - 1)%nat)
  /\ (fm = Some Pad ->
      forall col t v, In col prices -> (S t < length col)%nat ->
        nth (S t) col None = None ->
        nth t (filled fm col) None = Some v -> v <> 0 ->
        nth (S t) (pct_change_col fm col) NaN = Fin 0)
  /\ (fm = None ->
      forall col t, In col prices -> (S t < length col)%nat ->
        nth (S t) col None = None \/ nth t col None = None ->
        nth (S t) (pct_change_col fm col) NaN = NaN).
Proof.
  split; [|split; [|split; [|split]]].
  - exists (complete_rows (pct_change fm prices)). split; [reflexivity|].
    intros t. rewrite complete_rows_spec. unfold pct_change.
    split; intros [H1 H2]; split; auto; intros E; apply H1.
    + rewrite E. reflexivity.
    + destruct prices; [reflexivity | discriminate].
  - intros col t _ Ht. apply pct_change_col_entry. exact Ht.
  - intros cols -> Hrect Hz. split.
    + unfold calculate_returns. f_equal. apply dropna_defined; assumption.
    + intros c Hc. rewrite in_map_iff in Hc. destruct Hc as [ps [<- Hps]].
      rewrite simple_returns_length, (Hrect ps Hps). reflexivity.
  - intros -> col t v _. apply pct_change_col_padded.
  - intros -> col t _. apply pct_change_col_missing.
Qed.

(** The scenario of section 8 of the specification, asset A. *)
Lemma calculate_returns_rows_witness :
  calculate_returns None
    [[Some 100; Some 101; Some 98.98; Some 101.95; Some 103; Some 101.97]]
  = Ok [simple_returns [100; 101; 98.98; 101.95; 103; 101.97]].
Proof.
  refine (proj1 (proj1 (proj2 (proj2 (calculate_returns_rows None _)))
                       [[100; 101; 98.98; 101.95; 103; 101.97]] eq_refl _ _)).
  - intros c [<-|[]]. reflexivity.
  - constructor; [|constructor]. simpl. repeat split; intros [H1 H2]; lra.
Defined.

(** C2, as stated, fails twice.  Two dates with a defined price of zero
    give a change [0/0 - 1], which is undefined, so the only candidate row
    is dropped and no row is left instead of [n - 1 = 1], whatever the fill
    method.  And with the forward fill of pandas before 3.0 the date of a
    missing price is not dropped: the price 100 is carried over and the
    date is kept with the return 0. *)
Lemma calculate_returns_zero_or_missing_prices :
  calculate_returns None [[Some 0; Some 0]] = Ok [[]]
  /\ calculate_returns (Some Pad) [[Some 0; Some 0]] = Ok [[]]
  /\ calculate_returns (Some Pad) [[Some 100; None; Some 98]]
     = Ok [[Fin 0; Fin (-0.02)]].
Proof.
  assert (E : forall fm, calculate_returns fm [[Some 0; Some 0]] = Ok [[]]).
  { intros fm. unfold calculate_returns, pct_change.
    change (map (pct_change_col fm) [[Some 0; Some 0]])
      with [pct_change_col fm (map Some [0; 0])].
    rewrite (pct_change_col_defined fm [0; 0]).
    unfold simple_returns, map2, fdiv.
    rewrite (by_sign_zero 0) by reflexivity.
    rewrite (by_sign_zero (0 - 0)) by lra. reflexivity. }
  split; [apply E|]. split; [apply E|].
  unfold calculate_returns, pct_change, pct_change_col, filled, ffill, dropna.
  cbn [map ffill_from of_price shift removelast map2 fsub fneg fadd].
  rewrite !(fdiv_fin _ 100) by lra.
  cbn. do 3 f_equal; [f_equal; lra | do 2 f_equal; lra].
Qed.

(** C6, as amended.  On a price series with fewer than two dates per asset
    [calculate_returns] raises nothing: it returns a return series without
    rows, every asset's column being empty. *)
Theorem calculate_returns_short (fm : option fill) (prices : frame price) :
  (forall col, In col prices -> (length col < 2)%nat) ->
  calculate_returns fm prices = Ok (map (fun _ => []) prices).
Proof.
  intros Hshort. unfold calculate_returns, dropna. f_equal.
  set (df := pct_change fm prices).
  assert (Hkeep : forall t, nth t (complete_rows df) false = false).
  { intros t. apply not_true_is_false. rewrite complete_rows_spec.
    intros [Hne Hall]. subst df. unfold pct_change in *.
    destruct prices as [|col cs]; [exfalso; apply Hne; reflexivity|].
    specialize (Hall (pct_change_col fm col) (or_introl eq_refl)).
    pose proof (Hshort col (or_introl eq_refl)) as Hl.
    destruct t as [|t].
    - rewrite pct_change_col_first in Hall. discriminate.
    - rewrite nth_overflow in Hall by (rewrite pct_change_col_length; lia).
      discriminate. }
  subst df. unfold pct_change. rewrite map_map. apply map_ext.
  intros col. apply select_none. exact Hkeep.
Qed.

Lemma calculate_returns_short_witness :
  calculate_returns None [[Some 100]; [Some 50]] = Ok [[]; []].
Proof.
  apply (calculate_returns_short None [[Some 100]; [Some 50]]).
  intros col [<-|[<-|[]]]; simpl; lia.
Defined.

(** C6, as stated, fails: on a one-row price series [calculate_returns]
    returns an empty return series and raises nothing. *)
Lemma calculate_returns_one_row :
  calculate_returns None [[Some 100]] = Ok [[]]
  /\ calculate_returns (Some Pad) [[Some 100]] = Ok [[]]
  /\ ~ raises (calculate_returns None [[Some 100]])
  /\ ~ raises (calculate_returns (Some Pad) [[Some 100]]).
Proof.
  repeat split; try reflexivity; intros [e H]; discriminate H.
Qed.

(** ** The statistics evaluator *)

Lemma nansum_defined (l : list fval) :
  Forall (fun v => notna v = true) l -> nansum l = fsum l.
Proof.
  intros H. unfold nansum. f_equal.
  induction H as [|v l Hv _ IH]; simpl; trivial.
  rewrite IH. destruct v; (reflexivity || discriminate).
Qed.

(** The products of line 16 are defined as soon as no column is empty. *)
Lemma weighted_means_defined (cols : frame R) (w : list R) :
  (forall c, In c cols -> c <> []) ->
  Forall (fun v => notna v = true) (map2 fmul (map mean cols) (map Fin w)).
Proof.
  revert w. induction cols as [|c cols IH]; intros [|k w] H; simpl; constructor.
  - unfold mean. rewrite fdiv_fin; [reflexivity|].
    apply not_0_INR. destruct c; [exfalso; apply (H []); [left|]; reflexivity
                                 | discriminate].
  - apply IH. intros c' Hc'. apply H. right. exact Hc'.
Qed.

Lemma columns_not_empty (returns : frame R) :
  rectangular returns -> (1 <= nobs returns)%nat ->
  forall c, In c returns -> c <> [].
Proof.
  intros Hrect HN c Hc ->. apply Hrect in Hc. simpl in Hc. lia.
Qed.

Lemma map_seq_nth {A : Type} (l : list A) (d : A) :
  map (fun t => nth t l d) (seq 0 (length l)) = l.
Proof.
  induction l as [|a l IH]; simpl; trivial.
  rewrite <- seq_shift, map_map. simpl. rewrite IH. reflexivity.
Qed.

Lemma map2_seq {A B C : Type} (f : A -> B -> C) (l : list A) (m : list B)
    (n : nat) (da : A) (db : B) :
  length l = n -> length m = n ->
  map2 f l m = map (fun i => f (nth i l da) (nth i m db)) (seq 0 n).
Proof.
  revert m n. induction l as [|a l IH]; intros [|b m] n Hl Hm;
    simpl in *; subst n; try discriminate; trivial.
  simpl. rewrite <- seq_shift, map_map. simpl. f_equal.
  apply IH; congruence.
Qed.

Lemma nth_map_lt {A B : Type} (g : A -> B) (l : list A) (i : nat) (d : A) (d' : B) :
  (i < length l)%nat -> nth i (map g l) d' = g (nth i l d).
Proof.
  intros H. rewrite (nth_indep _ d' (g d)) by (rewrite length_map; exact H).
  apply map_nth.
Qed.

Lemma Rsum_nth (l : list R) :
  Rsum l = Spec.Rbig (length l) (fun t => nth t l 0).
Proof. unfold Spec.Rbig. rewrite map_seq_nth. reflexivity. Qed.

Lemma column_length (returns : frame R) (i : nat) :
  rectangular returns -> (i < length returns)%nat ->
  length (nth i returns []) = nobs returns.
Proof. intros Hrect Hi. apply Hrect, nth_In, Hi. Qed.

Lemma mean_column (returns : frame R) (i : nat) :
  rectangular returns -> (i < length returns)%nat ->
  mean (nth i returns []) = Spec.column_mean returns i.
Proof.
  intros Hrect Hi. unfold mean, Spec.column_mean, Spec.entry.
  rewrite Rsum_nth, column_length by assumption. reflexivity.
Qed.

Lemma Rmean_column (returns : frame R) (i : nat) :
  rectangular returns -> (i < length returns)%nat ->
  Rmean (nth i returns []) =
  Spec.Rbig (nobs returns) (fun t => Spec.entry returns t i) / INR (nobs returns).
Proof.
  intros Hrect Hi. unfold Rmean, Spec.entry.
  rewrite Rsum_nth, column_length by assumption. reflexivity.
Qed.

(** The covariance pandas computes is the sample covariance of the
    specification as soon as there is one observation. *)
Lemma cov_entry (returns : frame R) (i j : nat) :
  rectangular returns -> (1 <= nobs returns)%nat ->
  (i < length returns)%nat -> (j < length returns)%nat ->
  nth j (nth i (cov returns) []) NaN = Spec.covarianceMatrix returns i j.
Proof.
  intros Hrect HN Hi Hj. unfold cov.
  rewrite (nth_map_lt _ returns i []) by exact Hi.
  rewrite (nth_map_lt _ returns j []) by exact Hj.
  rewrite fmul_reciprocal. unfold Spec.covarianceMatrix.
  rewrite minus_INR by exact HN. change (INR 1) with 1.
  do 2 f_equal. unfold Rdot, centered, Spec.Rbig. f_equal.
  rewrite (map2_seq Rmult _ _ (nobs returns) 0 0)
    by (rewrite length_map; apply column_length; assumption).
  apply map_ext_in. intros t Ht. apply in_seq in Ht.
  rewrite !(nth_map_lt _ _ t 0) by (rewrite column_length by assumption; lia).
  rewrite !Rmean_column by assumption. reflexivity.
Qed.

Lemma cov_length (returns : frame R) : length (cov returns) = length returns.
Proof. unfold cov. apply length_map. Qed.

Lemma cov_row_length (returns : frame R) (i : nat) :
  (i < length returns)%nat -> length (nth i (cov returns) []) = length returns.
Proof.
  intros Hi. unfold cov. rewrite (nth_map_lt _ returns i []) by exact Hi.
  apply length_map.
Qed.

(** C1.  For weights as many as the assets and a rectangular return series
    with at least one observation, [portfolio_performance] returns the
    annualised return [sum_i w_i * mean_i * 252] and the annualised
    volatility [sqrt (w^T (C * 252) w)] of the specification, [C] being the
    sample covariance with the N-1 denominator. *)
Theorem portfolio_performance_spec (weights : list R) (returns : frame R) :
  rectangular returns ->
  length weights = length returns ->
  (1 <= nobs returns)%nat ->
  portfolio_performance weights returns
  = Ok (Spec.annualizedReturn weights returns,
        Spec.annualizedVolatility weights returns).
Proof.
  intros Hrect Hw HN. unfold portfolio_performance.
  rewrite Hw, Nat.eqb_refl. do 2 f_equal.
  - (* the return *)
    unfold Spec.annualizedReturn, Spec.fbig, Spec.annualizationFactor.
    f_equal.
    rewrite nansum_defined
      by (apply weighted_means_defined, columns_not_empty; assumption).
    unfold fsum. f_equal.
    rewrite (map2_seq fmul _ _ (length returns) (mean []) (Fin 0))
      by (rewrite length_map; congruence).
    apply map_ext_in. intros i Hi. apply in_seq in Hi.
    rewrite !map_nth, fmul_comm, mean_column by (assumption || lia).
    reflexivity.
  - (* the volatility *)
    unfold Spec.annualizedVolatility, Spec.fbig, Spec.annualizationFactor.
    f_equal. unfold dot at 1, mat_vec, scale.
    rewrite (map2_seq fmul _ _ (length returns) (Fin 0) NaN)
      by (rewrite ?length_map, ?cov_length; congruence).
    f_equal.
    apply map_ext_in. intros i Hi. apply in_seq in Hi.
    rewrite map_nth. f_equal.
    rewrite map_map.
    rewrite (nth_map_lt _ (cov returns) i [])
      by (rewrite cov_length; lia).
    unfold dot.
    rewrite (map2_seq fmul _ _ (length returns) NaN (Fin 0))
      by (rewrite ?length_map, ?cov_row_length; (congruence || lia)).
    f_equal.
    apply map_ext_in. intros j Hj. apply in_seq in Hj.
    rewrite map_nth.
    rewrite (nth_map_lt _ (nth i (cov returns) []) j NaN)
      by (rewrite cov_row_length; lia).
    rewrite cov_entry by (assumption || lia). reflexivity.
Qed.

(** Evaluation of the statistics on a concrete table. *)
Ltac unfold_stats :=
  unfold portfolio_performance; simpl length; simpl Nat.eqb; cbv iota;
  unfold cov, scale, mat_vec, dot, mean, centered, Rmean, Rdot, Rsum, nansum,
    fsum, nobs;
  cbn [map map2 fold_right length Nat.sub INR].

Ltac fval_eval :=
  repeat first [ rewrite fdiv_fin by lra
               | progress cbn [fmul fadd fsub fneg filter notna fold_right] ].

(** One asset with the returns 1% and 3%: mean 2%, variance 0.0002. *)
Example portfolio_performance_one_asset :
  portfolio_performance [1] [[0.01; 0.03]] = Ok (Fin 5.04, Fin (sqrt 0.0504)).
Proof.
  unfold_stats. fval_eval. unfold fsqrt.
  rewrite by_sign_pos by lra.
  repeat f_equal; lra.
Qed.

(** One asset whose price never moves: no return and no volatility. *)
Example portfolio_performance_flat :
  portfolio_performance [1] [[0; 0]] = Ok (Fin 0, Fin 0).
Proof.
  unfold_stats. fval_eval. unfold fsqrt.
  rewrite by_sign_zero by lra.
  repeat f_equal; lra.
Qed.

(** A table without rows: every mean is [NaN] and is left out of the sum,
    the covariances are [NaN] and stay. *)
Example portfolio_performance_no_row :
  portfolio_performance [1] [[]] = Ok (Fin 0, NaN).
Proof.
  unfold_stats. unfold fdiv. rewrite !(by_sign_zero 0) by reflexivity.
  rewrite (by_sign_pos 1) by lra. cbn. rewrite (by_sign_zero 0) by reflexivity.
  cbn. do 3 f_equal. ring.
Qed.

Lemma portfolio_performance_spec_witness :
  portfolio_performance [0.5; 0.5]
    [[0.01; -0.02; 0.03; 0.01; -0.01]; [0.00; 0.01; -0.01; 0.02; 0.00]]
  = Ok (Spec.annualizedReturn [0.5; 0.5]
          [[0.01; -0.02; 0.03; 0.01; -0.01]; [0.00; 0.01; -0.01; 0.02; 0.00]],
        Spec.annualizedVolatility [0.5; 0.5]
          [[0.01; -0.02; 0.03; 0.01; -0.01]; [0.00; 0.01; -0.01; 0.02; 0.00]]).
Proof.
  apply portfolio_performance_spec.
  - intros c [<-|[<-|[]]]; reflexivity.
  - reflexivity.
  - simpl. lia.
Defined.

(** ** The Sharpe ratio *)

Lemma weighted_means_finite (returns : frame R) (weights : list R) :
  (forall c, In c returns -> c <> []) ->
  exists s, fsum (map2 fmul (map mean returns) (map Fin weights)) = Fin s.
Proof.
  revert weights. induction returns as [|c cs IH]; intros [|w ws] Hne; simpl;
    try (exists 0; reflexivity).
  destruct (IH ws) as [s Hs]; [intros c' Hc'; apply Hne; right; exact Hc'|].
  simpl in Hs. rewrite Hs. unfold mean.
  assert (0 < INR (length c)).
  { apply lt_0_INR. destruct c; [exfalso; apply (Hne []); [left|]; reflexivity | simpl; lia]. }
  rewrite fdiv_fin by lra. simpl. eauto.
Qed.

(** Without an observation the covariance is [0 * inf], hence the
    volatility of one asset or more is undefined. *)
Lemma volatility_without_observation (w0 : R) (ws : list R) (cs : frame R) :
  fsqrt (dot (map Fin (w0 :: ws))
             (mat_vec (scale (cov ([] :: cs)) 252) (map Fin (w0 :: ws)))) = NaN.
Proof.
  unfold cov, nobs. cbn [length Nat.sub INR map].
  unfold centered at 1 2. cbn [map]. unfold Rdot at 1. cbn [map2 Rsum fold_right].
  unfold fdiv at 1. rewrite (by_sign_zero 0) by reflexivity.
  rewrite (by_sign_pos 1) by lra.
  unfold fmul at 1. rewrite (by_sign_zero 0) by reflexivity.
  reflexivity.
Qed.

(** A positive volatility comes with a finite return. *)
Lemma positive_volatility_finite_return
    (weights : list R) (returns : frame R) (pr : fval) (v : R) :
  rectangular returns ->
  portfolio_performance weights returns = Ok (pr, Fin v) -> 0 < v ->
  exists r, pr = Fin r.
Proof.
  intros Hrect H Hv. unfold portfolio_performance in H.
  destruct (length weights =? length returns)%nat eqn:E; [|discriminate].
  apply Nat.eqb_eq in E. injection H as Hr Hs.
  destruct returns as [|c cs].
  - destruct weights; [|discriminate]. unfold dot in Hs. simpl in Hs.
    rewrite by_sign_zero in Hs by reflexivity. injection Hs as Hs. lra.
  - destruct weights as [|w0 ws]; [discriminate|].
    destruct c as [|r0 c].
    + rewrite volatility_without_observation in Hs. discriminate.
    + destruct (weighted_means_finite ((r0 :: c) :: cs) (w0 :: ws)) as [s Hsum].
      * intros c' Hc' ->. apply Hrect in Hc'. discriminate.
      * rewrite nansum_defined, Hsum in Hr.
        -- exists (s * 252). rewrite <- Hr. reflexivity.
        -- apply weighted_means_defined.
           intros c' Hc' ->. apply Hrect in Hc'. discriminate.
Qed.

(** In exact arithmetic, for a fixed weight vector and return series with
    a positive volatility, the Sharpe ratio [(return - rate) / volatility]
    strictly decreases when the risk-free rate increases, and the objective
    [negative_sharpe_ratio], its opposite, strictly increases. *)
Lemma sharpe_ratio_decreasing
    (weights : list R) (returns : frame R) (pr : fval) (v r1 r2 : R) :
  rectangular returns ->
  portfolio_performance weights returns = Ok (pr, Fin v) ->
  0 < v -> r1 < r2 ->
  flt (sharpe_ratio pr (Fin v) r2) (sharpe_ratio pr (Fin v) r1)
  /\ exists n1 n2,
       negative_sharpe_ratio weights returns (Some r1) = Ok n1
       /\ negative_sharpe_ratio weights returns (Some r2) = Ok n2
       /\ flt n1 n2.
Proof.
  intros Hrect Hperf Hv Hr.
  destruct (positive_volatility_finite_return _ _ _ _ Hrect Hperf Hv) as [r ->].
  assert (Hinv : 0 < / v) by (apply Rinv_0_lt_compat; exact Hv).
  split.
  - unfold sharpe_ratio. cbn [fsub fneg fadd].
    rewrite !fdiv_fin by lra. simpl. unfold Rdiv.
    apply Rmult_lt_compat_r; lra.
  - unfold negative_sharpe_ratio. rewrite Hperf. cbn [bind fsub fneg fadd].
    rewrite !fdiv_fin by lra. do 2 eexists. split; [reflexivity|].
    split; [reflexivity|]. simpl. unfold Rdiv.
    apply Rmult_lt_compat_r; lra.
Qed.

Lemma sharpe_ratio_decreasing_witness :
  flt (sharpe_ratio (Fin 5.04) (Fin (sqrt 0.0504)) 0.02)
      (sharpe_ratio (Fin 5.04) (Fin (sqrt 0.0504)) 0.01)
  /\ exists n1 n2,
       negative_sharpe_ratio [1] [[0.01; 0.03]] (Some 0.01) = Ok n1
       /\ negative_sharpe_ratio [1] [[0.01; 0.03]] (Some 0.02) = Ok n2
       /\ flt n1 n2.
Proof.
  apply (sharpe_ratio_decreasing [1] [[0.01; 0.03]] (Fin 5.04) (sqrt 0.0504)).
  - intros c [<-|[]]. reflexivity.
  - exact portfolio_performance_one_asset.
  - apply sqrt_lt_R0. lra.
  - lra.
Defined.

(** C8, as amended.  For a fixed return and a fixed positive volatility the
    Sharpe ratio computed in doubles is non-increasing in the risk-free
    rate: for [r1 < r2] the ratio at [r2] is at most the ratio at [r1],
    whatever the (monotone) rounding of the subtraction and of the
    division, and the objective of line 22 is non-decreasing.  The ratio of
    the exact model is the one without rounding, and there the inequality
    is strict. *)
Theorem sharpe_ratio_nonincreasing (rnd : R -> R) (p_return p_std r1 r2 : R) :
  (forall a b, a <= b -> rnd a <= rnd b) ->
  0 < p_std -> r1 < r2 ->
  sharpe_ratio_rounded rnd p_return p_std r2
    <= sharpe_ratio_rounded rnd p_return p_std r1
  /\ negative_sharpe_ratio_rounded rnd p_return p_std r1
    <= negative_sharpe_ratio_rounded rnd p_return p_std r2
  /\ sharpe_ratio (Fin p_return) (Fin p_std) r1
     = Fin (sharpe_ratio_rounded (fun a => a) p_return p_std r1)
  /\ sharpe_ratio_rounded (fun a => a) p_return p_std r2
     < sharpe_ratio_rounded (fun a => a) p_return p_std r1.
Proof.
  intros Hmono Hstd Hr.
  assert (Hinv : 0 < / p_std) by (apply Rinv_0_lt_compat; exact Hstd).
  assert (Hsub : rnd (p_return - r2) <= rnd (p_return - r1))
    by (apply Hmono; lra).
  unfold sharpe_ratio_rounded, negative_sharpe_ratio_rounded, Rdiv.
  split; [|split; [|split]].
  - apply Hmono. apply Rmult_le_compat_r; lra.
  - apply Hmono. apply Rmult_le_compat_r; lra.
  - unfold sharpe_ratio. cbn [fsub fneg fadd]. apply fdiv_fin. lra.
  - apply Rmult_lt_compat_r; lra.
Qed.

Lemma round_down_monotone (a b : R) : a <= b -> round_down a <= round_down b.
Proof. intros H. unfold round_down. apply IZR_le, Zfloor_le, H. Qed.

Lemma sharpe_ratio_nonincreasing_witness :
  sharpe_ratio_rounded round_down 5.04 0.2 0.02
    <= sharpe_ratio_rounded round_down 5.04 0.2 0.01
  /\ negative_sharpe_ratio_rounded round_down 5.04 0.2 0.01
    <= negative_sharpe_ratio_rounded round_down 5.04 0.2 0.02
  /\ sharpe_ratio (Fin 5.04) (Fin 0.2) 0.01
     = Fin (sharpe_ratio_rounded (fun a => a) 5.04 0.2 0.01)
  /\ sharpe_ratio_rounded (fun a => a) 5.04 0.2 0.02
     < sharpe_ratio_rounded (fun a => a) 5.04 0.2 0.01.
Proof.
  apply (sharpe_ratio_nonincreasing round_down 5.04 0.2 0.01 0.02).
  - exact round_down_monotone.
  - lra.
  - lra.
Defined.

(** C8, as stated, fails on the doubles of the program: the rate 0.01 and
    the next double above it give the same difference [5.04 - rate] after
    rounding, hence the same Sharpe ratio, not a strictly smaller one. *)
Lemma sharpe_ratio_double_adjacent_rates :
  PrimFloat.ltb 0.01 (next_up 0.01) = true
  /\ sharpe_ratio_double 5.04 (PrimFloat.sqrt 0.0504) (next_up 0.01)
     = sharpe_ratio_double 5.04 (PrimFloat.sqrt 0.0504) 0.01
  /\ PrimFloat.ltb
       (sharpe_ratio_double 5.04 (PrimFloat.sqrt 0.0504) (next_up 0.01))
       (sharpe_ratio_double 5.04 (PrimFloat.sqrt 0.0504) 0.01) = false
  /\ PrimFloat.ltb 0 (PrimFloat.sqrt 0.0504) = true.
Proof. repeat split; reflexivity. Qed.

(** C4, as amended.  With a volatility of exactly zero the program divides
    all the same and numpy raises nothing: the Sharpe ratio is [+inf] for a
    return above the rate, [-inf] for a return below it, and [NaN] (not
    [0]) when the return equals the rate; [negative_sharpe_ratio] returns
    the opposite value. *)
Theorem zero_volatility_ratio
    (weights : list R) (returns : frame R) (pr rate : R) :
  portfolio_performance weights returns = Ok (Fin pr, Fin 0) ->
  (rate < pr ->
     sharpe_ratio (Fin pr) (Fin 0) rate = PInf
     /\ negative_sharpe_ratio weights returns (Some rate) = Ok NInf)
  /\ (pr < rate ->
     sharpe_ratio (Fin pr) (Fin 0) rate = NInf
     /\ negative_sharpe_ratio weights returns (Some rate) = Ok PInf)
  /\ (pr = rate ->
     sharpe_ratio (Fin pr) (Fin 0) rate = NaN
     /\ negative_sharpe_ratio weights returns (Some rate) = Ok NaN).
Proof.
  intros Hperf. unfold negative_sharpe_ratio, sharpe_ratio. rewrite Hperf.
  cbn [bind fsub fneg fadd fdiv].
  split; [|split]; intros Hcmp; split;
    rewrite (by_sign_zero 0) by reflexivity.
  - apply by_sign_pos. lra.
  - rewrite by_sign_neg by lra. reflexivity.
  - apply by_sign_neg. lra.
  - rewrite by_sign_pos by lra. reflexivity.
  - apply by_sign_zero. lra.
  - rewrite by_sign_zero by lra. reflexivity.
Qed.

Lemma zero_volatility_ratio_witness :
  sharpe_ratio (Fin 0) (Fin 0) 0.01 = NInf
  /\ negative_sharpe_ratio [1] [[0; 0]] (Some 0.01) = Ok PInf.
Proof.
  refine (proj1 (proj2 (zero_volatility_ratio [1] [[0; 0]] 0 0.01 _)) _).
  - exact portfolio_performance_flat.
  - lra.
Defined.

(** C4, as stated, fails: for an asset whose price never moves and a rate
    of zero, return and volatility are both zero and the ratio is [0/0],
    which is [NaN] and not [0]. *)
Lemma zero_over_zero_is_nan :
  portfolio_performance [1] [[0; 0]] = Ok (Fin 0, Fin 0)
  /\ negative_sharpe_ratio [1] [[0; 0]] (Some 0) = Ok NaN
  /\ sharpe_ratio (Fin 0) (Fin 0) 0 = NaN
  /\ sharpe_ratio (Fin 0) (Fin 0) 0 <> Fin 0.
Proof.
  assert (E : sharpe_ratio (Fin 0) (Fin 0) 0 = NaN).
  { unfold sharpe_ratio. cbn [fsub fneg fadd fdiv].
    rewrite (by_sign_zero 0) by reflexivity. apply by_sign_zero. lra. }
  split; [exact portfolio_performance_flat|]. split; [|split].
  - unfold negative_sharpe_ratio. rewrite portfolio_performance_flat.
    cbn [bind fsub fneg fadd fdiv].
    rewrite (by_sign_zero 0) by reflexivity. rewrite by_sign_zero by lra.
    reflexivity.
  - exact E.
  - rewrite E. discriminate.
Qed.

(** ** The optimiser *)

(** C5, as amended.  [max_sharpe_ratio] has no failure policy: for one
    asset or more it returns the result object of the solver as it is,
    whether the solver converged or not, and the caller takes the weights
    from its [x] without looking at [success] or [status]. *)
Theorem max_sharpe_ratio_returns_solver_result
    (slsqp : (list R -> result fval) -> list R -> list (R * R) -> constraint ->
             OptimizeResult)
    (cfg : Config) (returns : frame R) :
  returns <> [] ->
  let k := length returns in
  let res := slsqp (fun w => negative_sharpe_ratio w returns None)
                   (repeat (1 / INR k) k) (repeat (0, 1) k)
                   {| type := eq_constraint; fun_ := fun w => Rsum w - 1 |} in
  max_sharpe_ratio slsqp returns = Ok res
  /\ optimal_weights slsqp cfg returns = Ok (x res).
Proof.
  intros Hne k res. unfold optimal_weights, optimal_portfolio, max_sharpe_ratio.
  fold k. destruct (k =? 0)%nat eqn:E.
  - apply Nat.eqb_eq in E. subst k. destruct returns; [congruence | discriminate].
  - split; reflexivity.
Qed.

Lemma max_sharpe_ratio_returns_solver_result_witness :
  max_sharpe_ratio iteration_limit_reached [[0.01; 0.03]; [0.02; 0.00]]
  = Ok {| x := [1 / INR 2; 1 / INR 2]; success := false; status := 9 |}
  /\ optimal_weights iteration_limit_reached
       {| risk_free_rate := 0.01; risk_free_rate_slider := 1 |}
       [[0.01; 0.03]; [0.02; 0.00]]
     = Ok [1 / INR 2; 1 / INR 2].
Proof.
  apply (max_sharpe_ratio_returns_solver_result iteration_limit_reached
           {| risk_free_rate := 0.01; risk_free_rate_slider := 1 |}
           [[0.01; 0.03]; [0.02; 0.00]]).
  discriminate.
Defined.

(** C5, as stated, fails: when the solver reports that it did not converge,
    [max_sharpe_ratio] raises nothing and hands the unconverged iterate to
    its caller. *)
Lemma max_sharpe_ratio_unconverged :
  max_sharpe_ratio iteration_limit_reached [[0.01; 0.03]]
  = Ok {| x := [1 / INR 1]; success := false; status := 9 |}
  /\ ~ raises (max_sharpe_ratio iteration_limit_reached [[0.01; 0.03]])
  /\ optimal_weights iteration_limit_reached
       {| risk_free_rate := 0.01; risk_free_rate_slider := 1 |} [[0.01; 0.03]]
     = Ok [1 / INR 1].
Proof.
  repeat split; try reflexivity. intros [e H]. discriminate H.
Qed.

Lemma Rsum_repeat (a : R) (n : nat) : Rsum (repeat a n) = INR n * a.
Proof.
  induction n as [|n IH]; [simpl; ring|].
  change (Rsum (repeat a (S n))) with (a + Rsum (repeat a n)).
  rewrite IH, S_INR. ring.
Qed.

Lemma uniform_weights_valid (k : nat) :
  (1 <= k)%nat -> valid_weights (repeat (1 / INR k) k).
Proof.
  intros Hk.
  assert (HINR : 1 <= INR k) by (change 1 with (INR 1); apply le_INR; exact Hk).
  split.
  - rewrite Rsum_repeat.
    replace (INR k * (1 / INR k) - 1) with 0 by (field; lra).
    rewrite Rabs_R0. lra.
  - apply Forall_forall. intros w Hw. apply repeat_spec in Hw. subst w.
    assert (0 < / INR k) by (apply Rinv_0_lt_compat; lra).
    unfold Rdiv. lra.
Qed.

(** C3, as amended.  For one asset or more, the weight vector obtained from
    [max_sharpe_ratio] is the last iterate [x] of the solver, handed on
    unchanged (not renormalised, not clamped, [success] not looked at): it
    satisfies [|sum(weights) - 1| < 1e-6] and [min(weights) >= -1e-9] if
    and only if the iterate of the solver does.  The uniform starting point
    does; an iterate of the solver need not. *)
Theorem optimal_weights_as_valid_as_solver
    (slsqp : (list R -> result fval) -> list R -> list (R * R) -> constraint ->
             OptimizeResult)
    (cfg : Config) (returns : frame R) :
  returns <> [] ->
  let k := length returns in
  let res := slsqp (fun w => negative_sharpe_ratio w returns None)
                   (repeat (1 / INR k) k) (repeat (0, 1) k)
                   {| type := eq_constraint; fun_ := fun w => Rsum w - 1 |} in
  optimal_weights slsqp cfg returns = Ok (x res)
  /\ (forall weights,
        optimal_weights slsqp cfg returns = Ok weights ->
        (valid_weights weights <-> valid_weights (x res)))
  /\ valid_weights (repeat (1 / INR k) k).
Proof.
  intros Hne k res.
  assert (Hk : (1 <= k)%nat) by (subst k; destruct returns; [congruence | simpl; lia]).
  assert (E : optimal_weights slsqp cfg returns = Ok (x res)).
  { unfold optimal_weights, optimal_portfolio, max_sharpe_ratio. fold k.
    destruct (k =? 0)%nat eqn:E0; [apply Nat.eqb_eq in E0; lia | reflexivity]. }
  split; [exact E|]. split.
  - intros weights Hw. rewrite E in Hw. injection Hw as <-. reflexivity.
  - apply uniform_weights_valid. exact Hk.
Qed.

Lemma optimal_weights_as_valid_as_solver_witness :
  optimal_weights iteration_limit_reached
    {| risk_free_rate := 0.01; risk_free_rate_slider := 1 |}
    [[0.01; 0.03]; [0.02; 0.00]]
  = Ok [1 / INR 2; 1 / INR 2]
  /\ (forall weights,
        optimal_weights iteration_limit_reached
          {| risk_free_rate := 0.01; risk_free_rate_slider := 1 |}
          [[0.01; 0.03]; [0.02; 0.00]] = Ok weights ->
        (valid_weights weights <-> valid_weights [1 / INR 2; 1 / INR 2]))
  /\ valid_weights (repeat (1 / INR 2) 2).
Proof.
  apply (optimal_weights_as_valid_as_solver iteration_limit_reached
           {| risk_free_rate := 0.01; risk_free_rate_slider := 1 |}
           [[0.01; 0.03]; [0.02; 0.00]]).
  discriminate.
Defined.

(** C3, as stated, fails: when the solver stops on an iterate off the
    constraint, here with components summing to 2, these are the weights
    [max_sharpe_ratio] hands to its caller, and [|sum(weights) - 1|] is 1. *)
Lemma optimal_weights_off_constraint :
  optimal_weights off_constraint_iterate
    {| risk_free_rate := 0.01; risk_free_rate_slider := 1 |}
    [[0.01; 0.03]; [0.02; 0.00]; [-0.01; 0.02]]
  = Ok [1; 0; 1]
  /\ Rsum [1; 0; 1] = 2
  /\ ~ valid_weights [1; 0; 1].
Proof.
  split; [reflexivity|]. split; [simpl; lra|].
  intros [H _]. simpl in H.
  replace (1 + (0 + (1 + 0)) - 1) with 1 in H by lra.
  rewrite Rabs_R1 in H. lra.
Qed.

(** C9.  The optimisation does not depend on the configured risk-free
    rate: two configurations give the same solver result and the same
    weights, and the objective handed to the solver is the negative Sharpe
    ratio at the default rate 0.01. *)
Theorem optimal_weights_ignore_risk_free_rate
    (slsqp : (list R -> result fval) -> list R -> list (R * R) -> constraint ->
             OptimizeResult)
    (cfg1 cfg2 : Config) (returns : frame R) :
  optimal_portfolio slsqp cfg1 returns = optimal_portfolio slsqp cfg2 returns
  /\ optimal_weights slsqp cfg1 returns = optimal_weights slsqp cfg2 returns
  /\ exists objective,
       (forall w, objective w = negative_sharpe_ratio w returns (Some 0.01))
       /\ max_sharpe_ratio slsqp returns =
          let k := length returns in
          if (k =? 0)%nat then Raise ZeroDivisionError
          else Ok (slsqp objective (repeat (1 / INR k) k) (repeat (0, 1) k)
                         {| type := eq_constraint; fun_ := fun w => Rsum w - 1 |}).
Proof.
  split; [reflexivity|]. split; [reflexivity|].
  exists (fun w => negative_sharpe_ratio w returns None).
  split; [reflexivity|].
  unfold max_sharpe_ratio. cbv zeta.
  destruct (length returns =? 0)%nat; reflexivity.
Qed.

(** The reported ratio, in contrast, reads the configured rate. *)
Lemma opt_sharpe_reads_risk_free_rate :
  opt_sharpe iteration_limit_reached
    {| risk_free_rate := 0.01; risk_free_rate_slider := 1 |} [[0; 0]] = Ok NInf
  /\ opt_sharpe iteration_limit_reached
    {| risk_free_rate := -0.01; risk_free_rate_slider := 1 |} [[0; 0]] = Ok PInf.
Proof.
  assert (E : portfolio_performance [1 / INR 1] [[0; 0]] = Ok (Fin 0, Fin 0)).
  { unfold_stats. fval_eval. unfold fsqrt.
    rewrite by_sign_zero by lra. repeat f_equal; lra. }
  unfold opt_sharpe, optimal_weights, optimal_portfolio, max_sharpe_ratio.
  cbn [length Nat.eqb bind repeat minimize iteration_limit_reached x].
  rewrite E. cbn [bind sharpe_ratio risk_free_rate fsub fneg fadd fdiv].
  rewrite !(by_sign_zero 0) by reflexivity.
  split; [rewrite by_sign_neg by lra | rewrite by_sign_pos by lra]; reflexivity.
Qed.

(** ** The risk estimator *)

Lemma insert_perm (a : R) (l : list R) : Permutation (insert a l) (a :: l).
Proof.
  induction l as [|b l IH]; simpl; [reflexivity|].
  destruct (Rle_dec a b); [reflexivity|].
  rewrite IH. apply perm_swap.
Qed.

Lemma np_sort_perm (l : list R) : Permutation (np_sort l) l.
Proof.
  induction l as [|a l IH]; simpl; [constructor|].
  rewrite insert_perm. constructor. exact IH.
Qed.

Lemma insert_sorted (a : R) (l : list R) :
  StronglySorted Rle l -> StronglySorted Rle (insert a l).
Proof.
  induction 1 as [|b l Hl IH Hb]; simpl.
  - repeat constructor.
  - destruct (Rle_dec a b) as [Hab|Hab].
    + constructor; [constructor; assumption|].
      constructor; [exact Hab|].
      apply Forall_impl with (2 := Hb). intros c Hc. lra.
    + constructor; [exact IH|].
      apply (Permutation_Forall (Permutation_sym (insert_perm a l))).
      constructor; [lra | exact Hb].
Qed.

Lemma np_sort_sorted (l : list R) : StronglySorted Rle (np_sort l).
Proof.
  induction l as [|a l IH]; simpl; [constructor | apply insert_sorted, IH].
Qed.

(** The order statistics of a column are unique. *)
Lemma sorted_perm_unique (l l' : list R) :
  StronglySorted Rle l -> StronglySorted Rle l' -> Permutation l l' -> l = l'.
Proof.
  intros Hl. revert l'. induction Hl as [|a l Hl IH Ha]; intros l' Hl' Hp.
  - apply Permutation_nil in Hp. congruence.
  - destruct Hl' as [|b l' Hl' Hb].
    + symmetry in Hp. apply Permutation_nil in Hp. discriminate.
    + assert (a = b).
      { assert (Hab : In a (b :: l')) by (apply (Permutation_in _ Hp); left; reflexivity).
        assert (Hba : In b (a :: l))
          by (apply (Permutation_in _ (Permutation_sym Hp)); left; reflexivity).
        rewrite Forall_forall in Ha, Hb.
        destruct Hab as [->|Hab]; [reflexivity|].
        destruct Hba as [->|Hba]; [reflexivity|].
        apply Rle_antisym; auto. }
      subst b. f_equal. apply IH; [exact Hl'|].
      apply Permutation_cons_inv with (a := a). exact Hp.
Qed.

Lemma Rle_transitive : Relations_1.Transitive Rle.
Proof. intros a b c. apply Rle_trans. Qed.

Lemma np_sort_order_statistics (col r : list R) :
  Permutation r col -> Sorted Rle r -> np_sort col = r.
Proof.
  intros Hp Hs. apply sorted_perm_unique.
  - apply np_sort_sorted.
  - apply Sorted_StronglySorted; [exact Rle_transitive | exact Hs].
  - rewrite np_sort_perm. symmetry. exact Hp.
Qed.

(** The floor of the virtual index stays inside the array. *)
Lemma virtual_index_floor (q : R) (n : nat) :
  0 <= q <= 1 -> (1 <= n)%nat ->
  (0 <= Zfloor (q * (INR n - 1)) <= Z.of_nat n - 1)%Z.
Proof.
  intros Hq Hn.
  assert (H1 : 1 <= INR n) by (change 1 with (INR 1); apply le_INR; exact Hn).
  assert (H0 : 0 <= q * (INR n - 1)) by (apply Rmult_le_pos; lra).
  assert (Hu : q * (INR n - 1) <= INR n - 1) by nra.
  split.
  - apply Zfloor_lub. exact H0.
  - pose proof (Zfloor_bound (q * (INR n - 1))) as [Hf _].
    apply le_IZR. rewrite minus_IZR, <- INR_IZR_INZ. lra.
Qed.

Lemma quantile_linear_interpolates (q : R) (col r : list R) :
  col <> [] -> 0 < q < 1 -> Permutation r col -> Sorted Rle r ->
  quantile_linear q col = Fin (Spec.interpolated_quantile q r).
Proof.
  intros Hne Hq Hp Hs. unfold quantile_linear.
  destruct col as [|c0 col]; [congruence|].
  rewrite (np_sort_order_statistics _ r Hp Hs).
  unfold Spec.interpolated_quantile, lerp. f_equal.
  set (n := length r).
  assert (Hn : (1 <= n)%nat).
  { subst n. rewrite (Permutation_length Hp). simpl. lia. }
  set (h := q * (INR n - 1)).
  pose proof (virtual_index_floor q n (conj (Rlt_le _ _ (proj1 Hq)) (Rlt_le _ _ (proj2 Hq))) Hn)
    as Hfl.
  fold h in Hfl.
  pose proof (Zfloor_bound h) as Hb.
  set (z := Zfloor h) in *.
  rewrite (Nat.min_l (Z.to_nat z)) by lia.
  destruct (Nat.eq_dec n 1) as [E|E].
  - (* a single observation: the virtual index is 0 *)
    assert (Hh : h = 0) by (subst h; rewrite E; simpl; ring).
    assert (Hz : z = 0%Z) by lia.
    rewrite Hz, Hh, E. simpl. ring.
  - assert (Hlt : h < INR n - 1).
    { subst h. assert (1 < INR n).
      { change 1 with (INR 1). apply lt_INR. lia. }
      nra. }
    assert (Hz : (z < Z.of_nat n - 1)%Z).
    { apply lt_IZR. rewrite minus_IZR, <- INR_IZR_INZ. lra. }
    rewrite Nat.min_l by lia. ring.
Qed.

(** C10.  For an asset column with at least one return and a confidence
    level in the open interval (0, 1), [calculate_var] interpolates
    linearly between the order statistics [r_0 <= ... <= r_(n-1)] of the
    column: with [h = q * (n - 1)] and [j = floor h] it returns
    [r_j + (h - j) * (r_(j+1) - r_j)]. *)
Theorem calculate_var_interpolates
    (returns : frame R) (q : R) (i : nat) (col r : list R) :
  nth_error returns i = Some col -> col <> [] ->
  0 < q < 1 ->
  Permutation r col -> Sorted Rle r ->
  exists vars,
    calculate_var returns (Some q) = Ok vars
    /\ nth_error vars i = Some (Fin (Spec.interpolated_quantile q r)).
Proof.
  intros Hi Hne Hq Hp Hs. unfold calculate_var, quantile.
  destruct (Rle_dec 0 q) as [_|H]; [|exfalso; lra].
  destruct (Rle_dec q 1) as [_|H]; [|exfalso; lra].
  eexists. split; [reflexivity|].
  rewrite nth_error_map, Hi. simpl. f_equal.
  apply quantile_linear_interpolates; assumption.
Qed.

(** The median of two returns lies half-way between them. *)
Example interpolated_quantile_median :
  Spec.interpolated_quantile 0.5 [0.01; 0.03] = 0.02.
Proof.
  unfold Spec.interpolated_quantile. simpl length.
  rewrite (Zfloor_eq 0) by (simpl; lra). simpl. lra.
Qed.

Lemma calculate_var_interpolates_witness :
  exists vars,
    calculate_var [[0.03; 0.01]] (Some 0.5) = Ok vars
    /\ nth_error vars 0 = Some (Fin (Spec.interpolated_quantile 0.5 [0.01; 0.03])).
Proof.
  apply (calculate_var_interpolates [[0.03; 0.01]] 0.5 0 [0.03; 0.01] [0.01; 0.03]).
  - reflexivity.
  - discriminate.
  - lra.
  - apply perm_swap.
  - repeat constructor. lra.
Defined.

(** C7, as amended.  The only check on the confidence level is the one of
    pandas: outside the closed interval [0, 1] [calculate_var] fails with
    the [ValueError] of pandas; inside it, the bounds 0 and 1 included, it
    returns one quantile per asset. *)
Theorem calculate_var_domain (returns : frame R) (q : R) :
  (q < 0 \/ 1 < q -> calculate_var returns (Some q) = Raise ValueError)
  /\ (0 <= q <= 1 ->
      calculate_var returns (Some q) = Ok (map (quantile_linear q) returns)
      /\ length (map (quantile_linear q) returns) = length returns).
Proof.
  unfold calculate_var, quantile.
  split; intros H;
    destruct (Rle_dec 0 q), (Rle_dec q 1); try reflexivity; try (exfalso; lra).
  split; [reflexivity | apply length_map].
Qed.

Lemma calculate_var_domain_witness :
  calculate_var [[0.03; 0.01]; [0.02; 0.00]] (Some 1.5) = Raise ValueError
  /\ calculate_var [[0.03; 0.01]; [0.02; 0.00]] (Some 0.05)
     = Ok (map (quantile_linear 0.05) [[0.03; 0.01]; [0.02; 0.00]]).
Proof.
  split.
  - apply (proj1 (calculate_var_domain [[0.03; 0.01]; [0.02; 0.00]] 1.5)). lra.
  - apply (proj2 (calculate_var_domain [[0.03; 0.01]; [0.02; 0.00]] 0.05)). lra.
Defined.

(** C7, as stated, fails: the confidence levels 0 and 1 lie outside the
    open interval (0, 1), yet [calculate_var] returns the smallest and the
    largest return of the asset and raises nothing. *)
Lemma calculate_var_at_bounds :
  calculate_var [[0.01; -0.02]] (Some 0) = Ok [Fin (-0.02)]
  /\ calculate_var [[0.01; -0.02]] (Some 1) = Ok [Fin 0.01]
  /\ ~ raises (calculate_var [[0.01; -0.02]] (Some 0))
  /\ ~ raises (calculate_var [[0.01; -0.02]] (Some 1)).
Proof.
  assert (Hsort : np_sort [0.01; -0.02] = [-0.02; 0.01]).
  { simpl. destruct (Rle_dec 0.01 (-0.02)); [exfalso; lra | reflexivity]. }
  assert (E0 : calculate_var [[0.01; -0.02]] (Some 0) = Ok [Fin (-0.02)]).
  { unfold calculate_var, quantile.
    destruct (Rle_dec 0 0) as [_|H]; [|exfalso; lra].
    destruct (Rle_dec 0 1) as [_|H]; [|exfalso; lra].
    cbn [map]. unfold quantile_linear. rewrite Hsort. simpl length.
    rewrite (Zfloor_eq 0) by (simpl; lra).
    unfold lerp. simpl. do 3 f_equal. lra. }
  assert (E1 : calculate_var [[0.01; -0.02]] (Some 1) = Ok [Fin 0.01]).
  { unfold calculate_var, quantile.
    destruct (Rle_dec 0 1) as [_|H]; [|exfalso; lra].
    destruct (Rle_dec 1 1) as [_|H]; [|exfalso; lra].
    cbn [map]. unfold quantile_linear. rewrite Hsort. simpl length.
    rewrite (Zfloor_eq 1) by (simpl; lra).
    unfold lerp. simpl. do 3 f_equal. lra. }
  split; [exact E0|]. split; [exact E1|].
  split; intros [e H]; [rewrite E0 in H | rewrite E1 in H]; discriminate H.
Qed.

(** * Further properties *)

(** ** The return calculator: what the result always looks like *)

Lemma select_length_eq {A B : Type} (keep : list bool) (c : list A) (c' : list B) :
  length c = length c' -> length (select keep c) = length (select keep c').
Proof.
  revert c c'. induction keep as [|b keep IH]; intros [|a c] [|a' c'] H;
    simpl in *; try discriminate; trivial.
  destruct b; simpl; auto.
Qed.

Lemma select_length_le {A : Type} (keep : list bool) (c : list A) :
  (length (select keep c) <= length c)%nat.
Proof.
  revert c. induction keep as [|b keep IH]; intros [|a c]; simpl; try lia.
  specialize (IH c). destruct b; simpl; lia.
Qed.

Lemma select_length_first {A : Type} (keep : list bool) (c : list A) :
  nth 0 keep false = false -> (length (select keep c) <= length c - 1)%nat.
Proof.
  destruct keep as [|b keep], c as [|a c]; simpl; try lia.
  intros ->. pose proof (select_length_le keep c). lia.
Qed.

Lemma select_Forall {A : Type} (P : A -> Prop) (d : A) (keep : list bool) (c : list A) :
  (forall t, nth t keep false = true -> P (nth t c d)) -> Forall P (select keep c).
Proof.
  revert c. induction keep as [|b keep IH]; intros [|a c] H; simpl; try constructor.
  destruct b.
  - constructor; [exact (H 0%nat eq_refl)|]. apply IH. intros t. exact (H (S t)).
  - apply IH. intros t. exact (H (S t)).
Qed.

(** X1.  On a rectangular price series the result of [calculate_returns]
    is a rectangular table with one column per asset, at most [n - 1] rows,
    and no undefined entry. *)
Theorem calculate_returns_clean (fm : option fill) (prices : frame price)
    (r : frame fval) :
  rectangular prices ->
  calculate_returns fm prices = Ok r ->
  length r = length prices
  /\ rectangular r
  /\ (nobs r <= nobs prices - 1)%nat
  /\ forall col, In col r -> Forall (fun v => notna v = true) col.
Proof.
  intros Hrect H. injection H as <-. unfold dropna.
  set (df := pct_change fm prices). set (keep := complete_rows df).
  assert (Hlen : forall c, In c df -> length c = nobs prices).
  { intros c Hc. subst df. unfold pct_change in Hc. rewrite in_map_iff in Hc.
    destruct Hc as [p [<- Hp]]. rewrite pct_change_col_length. auto. }
  assert (Hfirst : nth 0 keep false = false).
  { apply not_true_is_false. subst keep. rewrite complete_rows_spec.
    intros [Hne Hall]. subst df. unfold pct_change in *.
    destruct prices as [|p ps]; [apply Hne; reflexivity|].
    specialize (Hall _ (or_introl eq_refl)).
    rewrite pct_change_col_first in Hall. discriminate. }
  split; [|split; [|split]].
  - subst df. unfold pct_change. rewrite !length_map. reflexivity.
  - intros c Hc. rewrite in_map_iff in Hc. destruct Hc as [c0 [<- Hc0]].
    destruct df as [|d0 df'] eqn:E; [destruct Hc0|].
    cbn [map nobs]. apply select_length_eq.
    rewrite (Hlen c0 Hc0), (Hlen d0 (or_introl eq_refl)). reflexivity.
  - destruct df as [|d0 df'] eqn:E; [simpl; lia|].
    cbn [map nobs]. rewrite <- (Hlen d0 (or_introl eq_refl)).
    apply select_length_first, Hfirst.
  - intros c Hc. rewrite in_map_iff in Hc. destruct Hc as [c0 [<- Hc0]].
    apply (select_Forall _ NaN). intros t Ht. subst keep.
    rewrite complete_rows_spec in Ht. destruct Ht as [_ Ht]. auto.
Qed.

Lemma calculate_returns_clean_witness :
  length [[PInf]; [Fin (0.5 - 1)]] = 2%nat
  /\ rectangular [[PInf]; [Fin (0.5 - 1)]]
  /\ (nobs [[PInf]; [Fin (0.5 - 1)]] <= 3 - 1)%nat
  /\ forall col, In col [[PInf]; [Fin (0.5 - 1)]] ->
                 Forall (fun v => notna v = true) col.
Proof.
  apply (calculate_returns_clean None
           [[Some 0; Some 1; None]; [Some 4; Some 2; Some 1]]).
  - intros c [<-|[<-|[]]]; reflexivity.
  - unfold calculate_returns, pct_change, pct_change_col, filled, dropna.
    cbn [map shift removelast map2 of_price].
    unfold fdiv. rewrite (by_sign_zero 0) by reflexivity.
    rewrite (by_sign_pos 1) by lra.
    rewrite (by_sign_pos 4) by lra. rewrite (by_sign_pos 2) by lra.
    cbn. replace (2 / 4 + - (1)) with (0.5 - 1) by lra. reflexivity.
Defined.

(** ** The return calculator: the unit of the prices does not matter *)

Lemma ffill_from_rescale (c : R) (last : price) (col : list price) :
  ffill_from (option_map (Rmult c) last) (rescale c col)
  = rescale c (ffill_from last col).
Proof.
  revert last. induction col as [|p col IH]; intros last; simpl; trivial.
  destruct p as [p|]; simpl; f_equal.
  - exact (IH (Some p)).
  - exact (IH last).
Qed.

Lemma filled_rescale (fm : option fill) (c : R) (col : list price) :
  filled fm (rescale c col) = rescale c (filled fm col).
Proof.
  destruct fm as [[]|]; simpl; trivial. exact (ffill_from_rescale c None col).
Qed.

Lemma pct_rescale (c : R) (p q : price) :
  0 < c ->
  fsub (fdiv (of_price (option_map (Rmult c) p)) (of_price (option_map (Rmult c) q)))
       (Fin 1)
  = fsub (fdiv (of_price p) (of_price q)) (Fin 1).
Proof.
  intros Hc. f_equal. destruct p as [p|], q as [q|]; simpl; trivial.
  unfold by_sign.
  destruct (total_order_T q 0) as [[Hq|Hq]|Hq];
    destruct (total_order_T (c * q) 0) as [[Hcq|Hcq]|Hcq]; try (exfalso; nra).
  - f_equal. field. split; lra.
  - destruct (total_order_T p 0) as [[Hp|Hp]|Hp];
      destruct (total_order_T (c * p) 0) as [[Hcp|Hcp]|Hcp];
      trivial; exfalso; nra.
  - f_equal. field. split; lra.
Qed.

Lemma pct_change_col_rescale (fm : option fill) (c : R) (col : list price) :
  0 < c -> pct_change_col fm (rescale c col) = pct_change_col fm col.
Proof.
  intros Hc. rewrite !pct_change_col_unfold, filled_rescale.
  destruct (filled fm col) as [|p0 ps]; trivial.
  cbn [rescale map]. f_equal.
  change (of_price (option_map (Rmult c) p0)
            :: map of_price (map (option_map (Rmult c)) ps))
    with (map of_price (map (option_map (Rmult c)) (p0 :: ps))).
  change (of_price p0 :: map of_price ps) with (map of_price (p0 :: ps)).
  generalize (p0 :: ps) as m.
  induction ps as [|p ps IH]; intros [|q m]; simpl; trivial.
  f_equal; [|apply IH].
  exact (pct_rescale c p q Hc).
Qed.

Lemma pct_change_rescale
    (fm : option fill) (factors : list R) (prices : frame price) :
  Forall (fun c => 0 < c) factors ->
  length factors = length prices ->
  pct_change fm (map2 rescale factors prices) = pct_change fm prices.
Proof.
  intros Hpos. unfold pct_change. revert prices.
  induction Hpos as [|c factors Hc Hpos IH]; intros [|p prices] Hlen;
    simpl in *; try discriminate; trivial.
  rewrite pct_change_col_rescale by exact Hc. f_equal. apply IH. lia.
Qed.

(** X2.  Multiplying the prices of each asset by a power of two of its own
    (a 2-for-1 split, for instance), the one scaling doubles perform without
    rounding, leaves the return series unchanged. *)
Theorem calculate_returns_scale_invariant
    (fm : option fill) (factors : list R) (prices : frame price) :
  Forall (fun c => exists e : Z, c = powerRZ 2 e) factors ->
  length factors = length prices ->
  calculate_returns fm (map2 rescale factors prices) = calculate_returns fm prices.
Proof.
  intros Hpow Hlen. unfold calculate_returns.
  rewrite pct_change_rescale; [reflexivity | | exact Hlen].
  apply Forall_impl with (2 := Hpow). intros c [e ->].
  apply powerRZ_lt. lra.
Qed.

Lemma calculate_returns_scale_invariant_witness :
  calculate_returns None
    (map2 rescale [2; 0.5] [[Some 100; Some 101; Some 98]; [Some 10; Some 11; Some 12]])
  = calculate_returns None [[Some 100; Some 101; Some 98]; [Some 10; Some 11; Some 12]].
Proof.
  apply calculate_returns_scale_invariant.
  - constructor; [exists 1%Z; simpl; lra|].
    constructor; [exists (-1)%Z; simpl; lra | constructor].
  - reflexivity.
Defined.

(** The tables of this example are not empty: two dates of returns. *)
Example calculate_returns_two_assets :
  exists r,
    calculate_returns None
      [[Some 100; Some 101; Some 98]; [Some 10; Some 11; Some 12]] = Ok r
    /\ length r = 2%nat /\ nobs r = 2%nat.
Proof.
  exists (map simple_returns [[100; 101; 98]; [10; 11; 12]]).
  split; [|split; reflexivity].
  unfold calculate_returns. f_equal.
  apply (dropna_defined None [[100; 101; 98]; [10; 11; 12]]).
  - intros c [<-|[<-|[]]]; reflexivity.
  - repeat constructor; intros [H1 H2]; lra.
Qed.

(** ** Vectors *)

Lemma map2_ext {A B C : Type} (f g : A -> B -> C) (l : list A) (m : list B) :
  (forall a b, f a b = g a b) -> map2 f l m = map2 g l m.
Proof.
  intros H. revert m. induction l as [|a l IH]; intros [|b m]; simpl; trivial.
  rewrite H, IH. reflexivity.
Qed.

Lemma map2_map {A A' B B' C : Type} (f : A' -> B' -> C) (g : A -> A') (h : B -> B')
    (l : list A) (m : list B) :
  map2 f (map g l) (map h m) = map2 (fun a b => f (g a) (h b)) l m.
Proof.
  revert m. induction l as [|a l IH]; intros [|b m]; simpl; trivial.
  rewrite IH. reflexivity.
Qed.

Lemma map_map2 {A B C D : Type} (g : C -> D) (f : A -> B -> C)
    (l : list A) (m : list B) :
  map g (map2 f l m) = map2 (fun a b => g (f a b)) l m.
Proof.
  revert m. induction l as [|a l IH]; intros [|b m]; simpl; trivial.
  rewrite IH. reflexivity.
Qed.

Lemma map2_flip {A B C : Type} (f : A -> B -> C) (l : list A) (m : list B) :
  map2 f l m = map2 (fun b a => f a b) m l.
Proof.
  revert m. induction l as [|a l IH]; intros [|b m]; simpl; trivial.
  rewrite IH. reflexivity.
Qed.

Lemma Rsum_map2_scal {A B : Type} (c : R) (f g : A -> B -> R)
    (l : list A) (m : list B) :
  (forall a b, f a b = c * g a b) ->
  Rsum (map2 f l m) = c * Rsum (map2 g l m).
Proof.
  intros H. revert m. induction l as [|a l IH]; intros [|b m]; simpl;
    try ring. rewrite H, IH. ring.
Qed.

Lemma vadd_length (a b : list R) :
  length a = length b -> length (vadd a b) = length a.
Proof. intros H. unfold vadd. rewrite map2_length. lia. Qed.

Lemma vscale_length (k : R) (a : list R) : length (vscale k a) = length a.
Proof. apply length_map. Qed.

Lemma combination_length (N : nat) (cols : frame R) (w : list R) :
  (forall c, In c cols -> length c = N) -> length (combination N cols w) = N.
Proof.
  revert w. induction cols as [|c cols IH]; intros [|k w] H; simpl;
    try apply repeat_length.
  rewrite vadd_length; rewrite vscale_length.
  - apply H. left. reflexivity.
  - rewrite IH; [apply H; left; reflexivity|].
    intros c' Hc'. apply H. right. exact Hc'.
Qed.

Lemma Rsum_vadd (a b : list R) :
  length a = length b -> Rsum (vadd a b) = Rsum a + Rsum b.
Proof.
  revert b. induction a as [|x a IH]; intros [|y b] H; simpl in *;
    try discriminate; try ring.
  unfold vadd in IH. rewrite IH by lia. ring.
Qed.

Lemma Rsum_vscale (k : R) (a : list R) : Rsum (vscale k a) = k * Rsum a.
Proof.
  unfold Rsum, vscale.
  induction a as [|x a IH]; simpl; [|rewrite IH]; ring.
Qed.

Lemma Rsum_zero (N : nat) : Rsum (repeat 0 N) = 0.
Proof. induction N as [|N IH]; simpl; [|rewrite IH]; ring. Qed.

Lemma Rdot_vadd_l (a b c : list R) :
  length a = length b -> Rdot (vadd a b) c = Rdot a c + Rdot b c.
Proof.
  unfold Rdot, vadd.
  revert b c. induction a as [|x a IH]; intros [|y b] [|z c] H; simpl in *;
    try discriminate; try ring.
  rewrite IH by lia. ring.
Qed.

Lemma Rdot_vscale_l (k : R) (a c : list R) :
  Rdot (vscale k a) c = k * Rdot a c.
Proof.
  unfold Rdot, vscale.
  revert c. induction a as [|x a IH]; intros [|z c]; simpl; try ring.
  rewrite IH. ring.
Qed.

Lemma Rdot_zero_l (N : nat) (c : list R) : Rdot (repeat 0 N) c = 0.
Proof.
  unfold Rdot. revert c. induction N as [|N IH]; intros [|z c]; simpl; try ring.
  rewrite IH. ring.
Qed.

Lemma Rdot_comm (a b : list R) : Rdot a b = Rdot b a.
Proof.
  unfold Rdot. rewrite (map2_flip Rmult a b). f_equal.
  apply map2_ext. intros. ring.
Qed.

Lemma Rdot_self_nonneg (a : list R) : 0 <= Rdot a a.
Proof.
  unfold Rdot. induction a as [|x a IH]; simpl; [lra|]. nra.
Qed.

Lemma Rdot_combination (N : nat) (ds : frame R) (w c : list R) :
  (forall d, In d ds -> length d = N) ->
  Rdot (combination N ds w) c = Rsum (map2 (fun d k => k * Rdot d c) ds w).
Proof.
  revert w. induction ds as [|d ds IH]; intros [|k w] H; simpl;
    try apply Rdot_zero_l.
  rewrite Rdot_vadd_l, Rdot_vscale_l, IH.
  - reflexivity.
  - intros d' Hd'. apply H. right. exact Hd'.
  - rewrite vscale_length, combination_length.
    + apply H. left. reflexivity.
    + intros d' Hd'. apply H. right. exact Hd'.
Qed.

Lemma Rmean_vadd (a b : list R) :
  length a = length b -> Rmean (vadd a b) = Rmean a + Rmean b.
Proof.
  intros H. unfold Rmean. rewrite Rsum_vadd, vadd_length, <- H by exact H.
  unfold Rdiv. ring.
Qed.

Lemma Rmean_vscale (k : R) (a : list R) : Rmean (vscale k a) = k * Rmean a.
Proof.
  unfold Rmean. rewrite Rsum_vscale, vscale_length. unfold Rdiv. ring.
Qed.

Lemma Rmean_zero (N : nat) : Rmean (repeat 0 N) = 0.
Proof. unfold Rmean. rewrite Rsum_zero. unfold Rdiv. ring. Qed.

Lemma Rmean_combination (N : nat) (cols : frame R) (w : list R) :
  (forall c, In c cols -> length c = N) ->
  Rmean (combination N cols w) = Rsum (map2 (fun c k => Rmean c * k) cols w).
Proof.
  revert w. induction cols as [|c cols IH]; intros [|k w] H; simpl;
    try apply Rmean_zero.
  rewrite Rmean_vadd, Rmean_vscale, IH.
  - ring.
  - intros c' Hc'. apply H. right. exact Hc'.
  - rewrite vscale_length, combination_length.
    + apply H. left. reflexivity.
    + intros c' Hc'. apply H. right. exact Hc'.
Qed.

Lemma centered_length (a : list R) : length (centered a) = length a.
Proof. apply length_map. Qed.

Lemma centered_vadd (a b : list R) :
  length a = length b -> centered (vadd a b) = vadd (centered a) (centered b).
Proof.
  intros H. unfold centered. rewrite (Rmean_vadd a b H).
  unfold vadd. rewrite map_map2, map2_map.
  apply map2_ext. intros. ring.
Qed.

Lemma centered_vscale (k : R) (a : list R) :
  centered (vscale k a) = vscale k (centered a).
Proof.
  unfold centered. rewrite Rmean_vscale. unfold vscale. rewrite !map_map.
  apply map_ext. intros. ring.
Qed.

Lemma centered_zero (N : nat) : centered (repeat 0 N) = repeat 0 N.
Proof.
  unfold centered. rewrite Rmean_zero.
  induction N as [|N IH]; simpl; [|rewrite IH]; trivial.
  f_equal. ring.
Qed.

Lemma centered_combination (N : nat) (cols : frame R) (w : list R) :
  (forall c, In c cols -> length c = N) ->
  centered (combination N cols w) = combination N (map centered cols) w.
Proof.
  revert w. induction cols as [|c cols IH]; intros [|k w] H; simpl;
    try apply centered_zero.
  rewrite centered_vadd, centered_vscale, IH.
  - reflexivity.
  - intros c' Hc'. apply H. right. exact Hc'.
  - rewrite vscale_length, combination_length.
    + apply H. left. reflexivity.
    + intros c' Hc'. apply H. right. exact Hc'.
Qed.



Lemma map2_map_l {A A' B C : Type} (f : A' -> B -> C) (g : A -> A')
    (l : list A) (m : list B) :
  map2 f (map g l) m = map2 (fun a b => f (g a) b) l m.
Proof.
  revert m. induction l as [|a l IH]; intros [|b m]; simpl; trivial.
  rewrite IH. reflexivity.
Qed.

Lemma map2_map_r {A B B' C : Type} (f : A -> B' -> C) (h : B -> B')
    (l : list A) (m : list B) :
  map2 f l (map h m) = map2 (fun a b => f a (h b)) l m.
Proof.
  revert m. induction l as [|a l IH]; intros [|b m]; simpl; trivial.
  rewrite IH. reflexivity.
Qed.

(** ** The statistics of the daily portfolio returns *)

Lemma mean_finite (c : list R) : c <> [] -> mean c = Fin (Rmean c).
Proof.
  intros Hc. unfold mean, Rmean. apply fdiv_fin.
  apply not_0_INR. destruct c; [congruence | discriminate].
Qed.

Lemma weighted_means_sum (cols : frame R) (w : list R) :
  (forall c, In c cols -> c <> []) ->
  fsum (map2 fmul (map mean cols) (map Fin w))
  = Fin (Rsum (map2 (fun c k => Rmean c * k) cols w)).
Proof.
  revert w. induction cols as [|c cols IH]; intros [|k w] H; simpl; trivial.
  rewrite mean_finite by (apply H; left; reflexivity).
  simpl in IH. rewrite IH by (intros c' Hc'; apply H; right; exact Hc').
  reflexivity.
Qed.

Lemma dot_fin (a b : list R) : dot (map Fin a) (map Fin b) = Fin (Rdot a b).
Proof.
  unfold dot, Rdot, fsum, Rsum.
  revert b. induction a as [|x a IH]; intros [|y b]; simpl; trivial.
  rewrite IH. reflexivity.
Qed.

Lemma fsqrt_nonneg (v : R) : 0 <= v -> fsqrt (Fin v) = Fin (sqrt v).
Proof.
  intros [Hv|Hv]; simpl.
  - apply by_sign_pos. exact Hv.
  - subst v. rewrite by_sign_zero by reflexivity. rewrite sqrt_0. reflexivity.
Qed.

(** With two observations or more every covariance is a finite number. *)
Lemma cov_finite (returns : frame R) :
  (2 <= nobs returns)%nat ->
  cov returns =
  map (fun ci =>
         map (fun cj => Fin (Rdot (centered ci) (centered cj)
                             / INR (nobs returns - 1)))
             returns)
      returns.
Proof.
  intros HN. unfold cov. apply map_ext. intros ci. apply map_ext. intros cj.
  rewrite fmul_reciprocal. apply fdiv_fin. apply not_0_INR. lia.
Qed.

Lemma sample_variance_nonneg (l : list R) :
  (2 <= length l)%nat -> 0 <= sample_variance l.
Proof.
  intros H. unfold sample_variance, Rdiv. apply Rmult_le_pos.
  - apply Rdot_self_nonneg.
  - left. apply Rinv_0_lt_compat, lt_0_INR. lia.
Qed.

(** The quadratic form [w^T (C * 252) w] is the annualised sample variance
    of the series [sum_i w_i * col_i]. *)
Lemma quadratic_form_variance (w : list R) (returns : frame R) :
  rectangular returns -> (2 <= nobs returns)%nat ->
  Rdot w (map (fun ci =>
                 Rdot (map (fun cj => Rdot (centered ci) (centered cj)
                                      / INR (nobs returns - 1) * 252) returns) w)
              returns)
  = sample_variance (combination (nobs returns) returns w) * 252.
Proof.
  intros Hrect HN. set (N := nobs returns).
  assert (Hf : INR (N - 1) <> 0) by (apply not_0_INR; lia).
  unfold sample_variance.
  rewrite (combination_length N returns w Hrect).
  rewrite (centered_combination N returns w Hrect).
  set (y := combination N (map centered returns) w).
  assert (Hd : forall d, In d (map centered returns) -> length d = N).
  { intros d Hd. rewrite in_map_iff in Hd. destruct Hd as [c [<- Hc]].
    rewrite centered_length. exact (Hrect c Hc). }
  assert (Hy : forall c, Rdot y c
                = Rsum (map2 (fun cj k => k * Rdot (centered cj) c) returns w)).
  { intros c. unfold y. rewrite (Rdot_combination N _ w c Hd).
    rewrite map2_map_l. reflexivity. }
  assert (Hg : forall ci,
             Rdot (map (fun cj => Rdot (centered ci) (centered cj)
                                  / INR (N - 1) * 252) returns) w
             = 252 / INR (N - 1) * Rdot y (centered ci)).
  { intros ci. rewrite Hy. unfold Rdot at 1. rewrite map2_map_l.
    apply Rsum_map2_scal. intros cj k.
    rewrite (Rdot_comm (centered cj) (centered ci)). field. exact Hf. }
  unfold Rdot at 1. rewrite map2_map_r, map2_flip.
  rewrite (Rsum_map2_scal (252 / INR (N - 1)) _
             (fun ci k => k * Rdot (centered ci) y)).
  - rewrite <- Hy. field. exact Hf.
  - intros ci k. cbv beta. rewrite Hg, (Rdot_comm y (centered ci)). ring.
Qed.

(** The statistics of [portfolio_performance] are those of the series of
    daily portfolio returns. *)
Lemma portfolio_performance_daily (w : list R) (returns : frame R) :
  rectangular returns -> length w = length returns -> (2 <= nobs returns)%nat ->
  portfolio_performance w returns
  = Ok (Fin (Rmean (combination (nobs returns) returns w) * 252),
        Fin (sqrt (sample_variance (combination (nobs returns) returns w) * 252))).
Proof.
  intros Hrect Hw HN. unfold portfolio_performance.
  rewrite Hw, Nat.eqb_refl. do 2 f_equal.
  - rewrite nansum_defined, weighted_means_sum.
    + rewrite Rmean_combination by exact Hrect. reflexivity.
    + apply columns_not_empty; [exact Hrect | lia].
    + apply weighted_means_defined, columns_not_empty; [exact Hrect | lia].
  - rewrite (cov_finite returns HN). unfold scale, mat_vec. rewrite !map_map.
    assert (Hmv : map (fun ci =>
                dot (map (fun c => fmul c (Fin 252))
                       (map (fun cj => Fin (Rdot (centered ci) (centered cj)
                                            / INR (nobs returns - 1))) returns))
                    (map Fin w)) returns
              = map Fin (map (fun ci =>
                   Rdot (map (fun cj => Rdot (centered ci) (centered cj)
                                        / INR (nobs returns - 1) * 252) returns) w)
                  returns)).
    { rewrite map_map. apply map_ext. intros ci. rewrite <- dot_fin. f_equal.
      rewrite !map_map. reflexivity. }
    rewrite Hmv, dot_fin, quadratic_form_variance by assumption.
    apply fsqrt_nonneg.
    apply Rmult_le_pos; [|lra]. apply sample_variance_nonneg.
    rewrite (combination_length _ _ _ Hrect). exact HN.
Qed.



(** The daily returns of this example, 1.5% and 1%, differ. *)
Example daily_returns_differ :
  portfolio_returns [[0.01; 0.03]; [0.02; -0.01]] [0.5; 0.5]
  = Ok [0.01 * 0.5 + (0.02 * 0.5 + 0); 0.03 * 0.5 + (-0.01 * 0.5 + 0)]
  /\ 0 < sample_variance
           [0.01 * 0.5 + (0.02 * 0.5 + 0); 0.03 * 0.5 + (-0.01 * 0.5 + 0)].
Proof.
  split; [reflexivity|].
  unfold sample_variance, centered, Rmean, Rdot, Rsum. simpl. lra.
Qed.

Lemma combination_zero (N : nat) (cols : frame R) (w : list R) :
  (forall c, In c cols -> length c = N /\ Forall (fun r => r = 0) c) ->
  combination N cols w = repeat 0 N.
Proof.
  revert w. induction cols as [|c cols IH]; intros [|k w] H; simpl; trivial.
  rewrite IH by (intros c' Hc'; apply H; right; exact Hc').
  destruct (H c (or_introl eq_refl)) as [Hlen Hz].
  assert (Hc : c = repeat 0 N).
  { rewrite <- Hlen. clear - Hz. induction Hz as [|r c -> _ IHc]; simpl; congruence. }
  rewrite Hc. clear. unfold vadd, vscale.
  induction N as [|N IHN]; simpl; trivial.
  rewrite IHN. f_equal. ring.
Qed.

(** X4.  For a table of returns that are all zero (prices that never
    move), with two observations or more, [portfolio_performance] returns
    the return 0 and the volatility 0 for every weight vector, and the
    objective [negative_sharpe_ratio] at its default rate is [+inf]: the
    solver is given a function that is infinite at every point. *)
Theorem flat_returns_objective (w : list R) (returns : frame R) :
  rectangular returns -> length w = length returns -> (2 <= nobs returns)%nat ->
  (forall col, In col returns -> Forall (fun r => r = 0) col) ->
  portfolio_performance w returns = Ok (Fin 0, Fin 0)
  /\ negative_sharpe_ratio w returns None = Ok PInf.
Proof.
  intros Hrect Hw HN Hflat.
  assert (Hperf : portfolio_performance w returns = Ok (Fin 0, Fin 0)).
  { rewrite (portfolio_performance_daily w returns Hrect Hw HN).
    rewrite combination_zero by (intros c Hc; split; [apply Hrect | apply Hflat]; exact Hc).
    unfold sample_variance.
    rewrite Rmean_zero, centered_zero, Rdot_zero_l.
    unfold Rdiv. rewrite !Rmult_0_l, sqrt_0. reflexivity. }
  split; [exact Hperf|].
  unfold negative_sharpe_ratio. rewrite Hperf.
  cbn [bind fsub fneg fadd fdiv].
  rewrite (by_sign_zero 0) by reflexivity. rewrite by_sign_pos by lra.
  reflexivity.
Qed.

Lemma flat_returns_objective_witness :
  portfolio_performance [0.25; 0.75] [[0; 0; 0]; [0; 0; 0]] = Ok (Fin 0, Fin 0)
  /\ negative_sharpe_ratio [0.25; 0.75] [[0; 0; 0]; [0; 0; 0]] None = Ok PInf.
Proof.
  apply flat_returns_objective.
  - intros c [<-|[<-|[]]]; reflexivity.
  - reflexivity.
  - simpl. lia.
  - intros col [<-|[<-|[]]]; repeat constructor.
Defined.

(** ** A single observation *)

Lemma fdiv_nan_r (a : fval) : fdiv a NaN = NaN.
Proof. destruct a; reflexivity. Qed.

Lemma centered_single (c : list R) :
  length c = 1%nat -> centered c = [0].
Proof.
  destruct c as [|r [|r' c]]; try discriminate. intros _.
  unfold centered, Rmean. simpl. f_equal. field.
Qed.

(** With one observation every covariance is [0 * inf]. *)
Lemma cov_single (returns : frame R) :
  rectangular returns -> nobs returns = 1%nat ->
  cov returns = map (fun _ => map (fun _ => NaN) returns) returns.
Proof.
  intros Hrect HN. unfold cov. rewrite HN.
  apply map_ext_in. intros ci Hci. apply map_ext_in. intros cj Hcj.
  rewrite !centered_single by (rewrite <- HN; apply Hrect; assumption).
  unfold Rdot. simpl. rewrite (by_sign_zero 0) by reflexivity.
  rewrite (by_sign_pos 1) by lra. apply by_sign_zero. ring.
Qed.

(** X5.  With a single observation (the return series of two price dates)
    and one asset or more, the volatility is [NaN] for every weight vector,
    and so is the objective [negative_sharpe_ratio] the solver is given;
    nothing is raised. *)
Theorem single_observation_objective_nan
    (w : list R) (returns : frame R) (rate : option R) :
  rectangular returns -> length w = length returns ->
  nobs returns = 1%nat ->
  (exists pr, portfolio_performance w returns = Ok (pr, NaN))
  /\ negative_sharpe_ratio w returns rate = Ok NaN.
Proof.
  intros Hrect Hw HN.
  assert (Hperf : exists pr, portfolio_performance w returns = Ok (pr, NaN)).
  { unfold portfolio_performance. rewrite Hw, Nat.eqb_refl.
    eexists. do 2 f_equal. rewrite (cov_single returns Hrect HN).
    destruct returns as [|c cs]; [discriminate|].
    destruct w as [|k ws]; [discriminate|].
    cbn [map scale mat_vec dot map2 fsum fold_right fmul fadd].
    reflexivity. }
  split; [exact Hperf|].
  destruct Hperf as [pr Hperf]. unfold negative_sharpe_ratio.
  rewrite Hperf. cbn [bind]. rewrite fdiv_nan_r. reflexivity.
Qed.

Lemma single_observation_objective_nan_witness :
  (exists pr, portfolio_performance [0.5; 0.5] [[0.01]; [0.02]] = Ok (pr, NaN))
  /\ negative_sharpe_ratio [0.5; 0.5] [[0.01]; [0.02]] None = Ok NaN.
Proof.
  apply single_observation_objective_nan.
  - intros c [<-|[<-|[]]]; reflexivity.
  - reflexivity.
  - reflexivity.
Defined.

(** ** The objective and the ratio shown *)

Lemma fdiv_fneg (a b : fval) : fdiv (fneg a) b = fneg (fdiv a b).
Proof.
  destruct a as [x| | |], b as [y| | |]; simpl; trivial.
  - unfold by_sign.
    destruct (total_order_T y 0) as [[Hy|Hy]|Hy]; simpl.
    + f_equal. field. lra.
    + destruct (total_order_T x 0) as [[Hx|Hx]|Hx];
        destruct (total_order_T (- x) 0) as [[Hx'|Hx']|Hx'];
        trivial; exfalso; lra.
    + f_equal. field. lra.
  - f_equal. ring.
  - f_equal. ring.
  - unfold by_sign. destruct (total_order_T y 0) as [[Hy|Hy]|Hy]; reflexivity.
  - unfold by_sign. destruct (total_order_T y 0) as [[Hy|Hy]|Hy]; reflexivity.
Qed.

(** X6.  The ratio the dashboard shows is the opposite of the objective at
    the weights the solver returned: for a configured rate equal to the
    default 0.01 of [negative_sharpe_ratio], [opt_sharpe] is the negation
    of [negative_sharpe_ratio(optimal_weights, returns)], special values
    included. *)
Theorem opt_sharpe_opposite_objective
    (slsqp : (list R -> result fval) -> list R -> list (R * R) -> constraint ->
             OptimizeResult)
    (cfg : Config) (returns : frame R) :
  risk_free_rate cfg = 0.01 ->
  opt_sharpe slsqp cfg returns =
  (weights <- optimal_weights slsqp cfg returns ;;
   objective <- negative_sharpe_ratio weights returns None ;;
   Ok (fneg objective)).
Proof.
  intros Hrate. unfold opt_sharpe.
  destruct (optimal_weights slsqp cfg returns) as [weights|e]; [|reflexivity].
  cbn [bind]. unfold negative_sharpe_ratio.
  destruct (portfolio_performance weights returns) as [[p_return p_std]|e];
    [|reflexivity].
  cbn [bind]. unfold sharpe_ratio. rewrite Hrate, fdiv_fneg.
  destruct (fdiv (fsub p_return (Fin 0.01)) p_std) as [v| | |]; simpl; trivial.
  f_equal. f_equal. ring.
Qed.

Lemma opt_sharpe_opposite_objective_witness :
  opt_sharpe iteration_limit_reached
    {| risk_free_rate := 0.01; risk_free_rate_slider := 2 |} [[0.01; 0.03]] =
  (weights <- optimal_weights iteration_limit_reached
                {| risk_free_rate := 0.01; risk_free_rate_slider := 2 |}
                [[0.01; 0.03]] ;;
   objective <- negative_sharpe_ratio weights [[0.01; 0.03]] None ;;
   Ok (fneg objective)).
Proof.
  apply opt_sharpe_opposite_objective. reflexivity.
Defined.

(** ** The starting point of the optimisation *)

(** X7.  For one asset or more the solver is started at the uniform
    allocation, which is feasible within tolerance: it has one weight per
    asset, every weight lies within its bound [0, 1], the equality
    constraint [sum(x) - 1] is below 1e-6 in absolute value on it, and the
    objective evaluates on it without raising. *)
Theorem max_sharpe_ratio_start_feasible
    (slsqp : (list R -> result fval) -> list R -> list (R * R) -> constraint ->
             OptimizeResult)
    (returns : frame R) :
  returns <> [] ->
  let k := length returns in
  let objective := fun w => negative_sharpe_ratio w returns None in
  let x0 := repeat (1 / INR k) k in
  let bounds := repeat (0, 1) k in
  let c := {| type := eq_constraint; fun_ := fun w => Rsum w - 1 |} in
  max_sharpe_ratio slsqp returns = Ok (slsqp objective x0 bounds c)
  /\ length x0 = k /\ length bounds = k
  /\ Forall2 (fun v b => fst b <= v <= snd b) x0 bounds
  /\ Rabs (fun_ c x0) < 1e-6
  /\ exists v, objective x0 = Ok v.
Proof.
  intros Hne k objective x0 bounds c.
  assert (Hk : (1 <= k)%nat).
  { subst k. destruct returns; [congruence | simpl; lia]. }
  assert (HINR : 1 <= INR k).
  { change 1 with (INR 1). apply le_INR. exact Hk. }
  split; [|split; [|split; [|split; [|split]]]].
  - unfold max_sharpe_ratio. fold k.
    destruct (k =? 0)%nat eqn:E; [apply Nat.eqb_eq in E; lia | reflexivity].
  - apply repeat_length.
  - apply repeat_length.
  - subst x0 bounds. generalize k at 2 3 as n.
    induction n as [|n IH]; simpl; constructor; [|exact IH].
    simpl. split.
    + apply Rmult_le_pos; [lra|]. left. apply Rinv_0_lt_compat. lra.
    + apply Rmult_le_reg_r with (INR k); [lra|]. field_simplify; lra.
  - exact (proj1 (uniform_weights_valid k Hk)).
  - subst objective. cbv beta. unfold negative_sharpe_ratio, portfolio_performance.
    subst x0. rewrite repeat_length. fold k. rewrite Nat.eqb_refl.
    cbn [bind]. eexists. reflexivity.
Qed.

Lemma max_sharpe_ratio_start_feasible_witness :
  max_sharpe_ratio iteration_limit_reached [[0.01; 0.03]; [0.02; 0.00]]
  = Ok (iteration_limit_reached
          (fun w => negative_sharpe_ratio w [[0.01; 0.03]; [0.02; 0.00]] None)
          (repeat (1 / INR 2) 2) (repeat (0, 1) 2)
          {| type := eq_constraint; fun_ := fun w => Rsum w - 1 |})
  /\ length (repeat (1 / INR 2) 2) = 2%nat
  /\ length (repeat (0, 1) 2) = 2%nat
  /\ Forall2 (fun v b => fst b <= v <= snd b) (repeat (1 / INR 2) 2) (repeat (0, 1) 2)
  /\ Rabs (Rsum (repeat (1 / INR 2) 2) - 1) < 1e-6
  /\ exists v, negative_sharpe_ratio (repeat (1 / INR 2) 2)
                 [[0.01; 0.03]; [0.02; 0.00]] None = Ok v.
Proof.
  apply (max_sharpe_ratio_start_feasible iteration_limit_reached
           [[0.01; 0.03]; [0.02; 0.00]]).
  discriminate.
Defined.

(** ** The risk estimator: order, bounds, permutations *)

Lemma quantile_linear_interpolate (q : R) (col : list R) :
  col <> [] ->
  quantile_linear q col
  = Fin (interpolate (np_sort col) (q * (INR (length col) - 1))).
Proof.
  intros Hne. destruct col as [|c0 col]; [congruence|].
  unfold quantile_linear, interpolate.
  rewrite (Permutation_length (np_sort_perm (c0 :: col))). reflexivity.
Qed.

Lemma sorted_nth_le (r : list R) (i j : nat) :
  StronglySorted Rle r -> (i <= j)%nat -> (j < length r)%nat ->
  nth i r 0 <= nth j r 0.
Proof.
  intros Hs. revert i j. induction Hs as [|a r Hs IH Ha]; intros i j Hij Hj.
  - simpl in Hj. lia.
  - destruct j as [|j]; [replace i with 0%nat by lia; lra|].
    simpl in Hj. destruct i as [|i].
    + simpl. rewrite Forall_forall in Ha. apply Ha. apply nth_In. lia.
    + simpl. apply IH; lia.
Qed.

(** The virtual index, its floor and the two nodes it lies between. *)
Lemma interpolate_nodes (r : list R) (h : R) :
  StronglySorted Rle r -> r <> [] -> 0 <= h ->
  let j := Z.to_nat (Zfloor h) in
  let a := nth (Nat.min j (length r - 1)) r 0 in
  let b := nth (Nat.min (j + 1) (length r - 1)) r 0 in
  a <= interpolate r h <= b /\ In a r /\ In b r.
Proof.
  intros Hs Hne Hh j a b.
  assert (Hn : (1 <= length r)%nat) by (destruct r; [congruence | simpl; lia]).
  pose proof (Zfloor_bound h) as [Hf1 Hf2].
  assert (Hab : a <= b) by (apply sorted_nth_le; [exact Hs | lia | lia]).
  split; [|split; apply nth_In; lia].
  unfold interpolate, lerp. fold j a b.
  set (g := h - IZR (Zfloor h)). assert (0 <= g < 1) by (subst g; lra).
  split; nra.
Qed.

Lemma interpolate_mono (r : list R) (h1 h2 : R) :
  StronglySorted Rle r -> r <> [] -> 0 <= h1 <= h2 ->
  interpolate r h1 <= interpolate r h2.
Proof.
  intros Hs Hne [H1 H12].
  assert (Hn : (1 <= length r)%nat) by (destruct r; [congruence | simpl; lia]).
  pose proof (Zfloor_le h1 h2 H12) as Hz.
  pose proof (Zfloor_lub 0 h1 H1) as Hz1.
  destruct (Z.eq_dec (Zfloor h1) (Zfloor h2)) as [E|E].
  - (* between the same two nodes *)
    unfold interpolate, lerp. rewrite <- E.
    set (j := Z.to_nat (Zfloor h1)).
    assert (Hab : nth (Nat.min j (length r - 1)) r 0
                  <= nth (Nat.min (j + 1) (length r - 1)) r 0)
      by (apply sorted_nth_le; [exact Hs | lia | lia]).
    nra.
  - (* a node lies between them *)
    pose proof (interpolate_nodes r h1 Hs Hne H1) as [[_ Hb1] _].
    pose proof (interpolate_nodes r h2 Hs Hne (Rle_trans _ _ _ H1 H12)) as [[Ha2 _] _].
    cbv zeta in Hb1, Ha2.
    apply Rle_trans with (1 := Hb1). apply Rle_trans with (2 := Ha2).
    apply sorted_nth_le; [exact Hs | lia | lia].
Qed.

Lemma calculate_var_column (returns : frame R) (q : R) (i : nat) (col : list R) :
  nth_error returns i = Some col -> col <> [] -> 0 <= q <= 1 ->
  exists vars,
    calculate_var returns (Some q) = Ok vars
    /\ nth_error vars i
       = Some (Fin (interpolate (np_sort col) (q * (INR (length col) - 1)))).
Proof.
  intros Hi Hne Hq. unfold calculate_var, quantile.
  destruct (Rle_dec 0 q) as [_|H]; [|exfalso; lra].
  destruct (Rle_dec q 1) as [_|H]; [|exfalso; lra].
  eexists. split; [reflexivity|].
  rewrite nth_error_map, Hi. simpl. f_equal.
  apply quantile_linear_interpolate. exact Hne.
Qed.

Lemma np_sort_nonempty (col : list R) : col <> [] -> np_sort col <> [].
Proof.
  intros Hne E. apply Hne. apply Permutation_nil.
  rewrite <- E. apply np_sort_perm.
Qed.

Lemma column_span (col : list R) :
  col <> [] -> 0 <= INR (length col) - 1.
Proof.
  intros Hne. assert (1 <= length col)%nat by (destruct col; [congruence | simpl; lia]).
  apply le_INR in H. simpl in H. lra.
Qed.

(** X8.  The value at risk of an asset does not decrease when the
    confidence level increases within [0, 1]. *)
Theorem calculate_var_monotone
    (returns : frame R) (q1 q2 : R) (i : nat) (col : list R) :
  nth_error returns i = Some col -> col <> [] ->
  0 <= q1 -> q1 <= q2 -> q2 <= 1 ->
  exists vars1 vars2 v1 v2,
    calculate_var returns (Some q1) = Ok vars1
    /\ calculate_var returns (Some q2) = Ok vars2
    /\ nth_error vars1 i = Some (Fin v1)
    /\ nth_error vars2 i = Some (Fin v2)
    /\ v1 <= v2.
Proof.
  intros Hi Hne H1 H12 H2.
  destruct (calculate_var_column returns q1 i col Hi Hne) as [vars1 [E1 N1]]; [lra|].
  destruct (calculate_var_column returns q2 i col Hi Hne) as [vars2 [E2 N2]]; [lra|].
  exists vars1, vars2. do 2 eexists.
  split; [exact E1|]. split; [exact E2|]. split; [exact N1|]. split; [exact N2|].
  pose proof (column_span col Hne) as Hspan.
  apply interpolate_mono.
  - apply np_sort_sorted.
  - apply np_sort_nonempty, Hne.
  - split; [apply Rmult_le_pos; lra | apply Rmult_le_compat_r; lra].
Qed.

Lemma calculate_var_monotone_witness :
  exists vars1 vars2 v1 v2,
    calculate_var [[0.03; -0.02; 0.01]] (Some 0.01) = Ok vars1
    /\ calculate_var [[0.03; -0.02; 0.01]] (Some 0.05) = Ok vars2
    /\ nth_error vars1 0 = Some (Fin v1)
    /\ nth_error vars2 0 = Some (Fin v2)
    /\ v1 <= v2.
Proof.
  apply (calculate_var_monotone [[0.03; -0.02; 0.01]] 0.01 0.05 0 [0.03; -0.02; 0.01]).
  - reflexivity.
  - discriminate.
  - lra.
  - lra.
  - lra.
Defined.

(** X9.  For a confidence level in [0, 1] the value at risk of an asset
    lies between the bounds of its returns: it is never below the smallest
    nor above the largest return of the column. *)
Theorem calculate_var_within_returns
    (returns : frame R) (q lo hi : R) (i : nat) (col : list R) :
  nth_error returns i = Some col -> col <> [] ->
  0 <= q <= 1 ->
  (forall r, In r col -> lo <= r <= hi) ->
  exists vars v,
    calculate_var returns (Some q) = Ok vars
    /\ nth_error vars i = Some (Fin v)
    /\ lo <= v <= hi.
Proof.
  intros Hi Hne Hq Hb.
  destruct (calculate_var_column returns q i col Hi Hne Hq) as [vars [E N]].
  exists vars. eexists. split; [exact E|]. split; [exact N|].
  pose proof (column_span col Hne) as Hspan.
  destruct (interpolate_nodes (np_sort col) (q * (INR (length col) - 1)))
    as [[Ha Hb'] [Hina Hinb]].
  - apply np_sort_sorted.
  - apply np_sort_nonempty, Hne.
  - apply Rmult_le_pos; lra.
  - cbv zeta in *.
    apply (Permutation_in _ (np_sort_perm col)) in Hina, Hinb.
    apply Hb in Hina, Hinb. lra.
Qed.

Lemma calculate_var_within_returns_witness :
  exists vars v,
    calculate_var [[0.03; -0.02; 0.01]] (Some 0.05) = Ok vars
    /\ nth_error vars 0 = Some (Fin v)
    /\ -0.02 <= v <= 0.03.
Proof.
  apply (calculate_var_within_returns [[0.03; -0.02; 0.01]] 0.05 (-0.02) 0.03 0
           [0.03; -0.02; 0.01]).
  - reflexivity.
  - discriminate.
  - lra.
  - intros r [<-|[<-|[<-|[]]]]; lra.
Defined.

Lemma quantile_linear_perm (q : R) (col col' : list R) :
  Permutation col col' -> quantile_linear q col = quantile_linear q col'.
Proof.
  intros Hp. destruct col as [|c0 col].
  - apply Permutation_nil in Hp. subst col'. reflexivity.
  - assert (Hne' : col' <> []).
    { intros ->. symmetry in Hp. apply Permutation_nil in Hp. discriminate. }
    rewrite !quantile_linear_interpolate by (assumption || discriminate).
    rewrite (Permutation_length Hp). do 2 f_equal.
    apply sorted_perm_unique; try apply np_sort_sorted.
    rewrite !np_sort_perm. exact Hp.
Qed.

(** X10.  The value at risk does not depend on the order of the dates:
    permuting the returns of each asset leaves [calculate_var] unchanged. *)
Theorem calculate_var_order_independent
    (returns returns' : frame R) (confidence_level : option R) :
  Forall2 (@Permutation R) returns returns' ->
  calculate_var returns confidence_level = calculate_var returns' confidence_level.
Proof.
  intros Hp. unfold calculate_var, quantile.
  destruct (Rle_dec 0 _); [|reflexivity].
  destruct (Rle_dec _ 1); [|reflexivity].
  f_equal. induction Hp as [|c c' l l' Hc _ IH]; simpl; [reflexivity|].
  rewrite IH, (quantile_linear_perm _ c c' Hc). reflexivity.
Qed.

Lemma calculate_var_order_independent_witness :
  calculate_var [[0.03; -0.02; 0.01]] None = calculate_var [[-0.02; 0.03; 0.01]] None.
Proof.
  apply calculate_var_order_independent.
  constructor; [|constructor]. apply perm_swap.
Defined.

Lemma interpolate_first (r : list R) : interpolate r 0 = nth 0 r 0.
Proof.
  unfold interpolate, lerp. rewrite (Zfloor_eq 0) by (simpl; lra).
  simpl. ring.
Qed.

Lemma interpolate_last (r : list R) :
  r <> [] -> interpolate r (INR (length r) - 1) = nth (length r - 1) r 0.
Proof.
  intros Hne.
  assert (Hn : (1 <= length r)%nat) by (destruct r; [congruence | simpl; lia]).
  assert (E : INR (length r) - 1 = IZR (Z.of_nat (length r) - 1))
    by (rewrite minus_IZR, <- INR_IZR_INZ; reflexivity).
  unfold interpolate, lerp. rewrite E.
  rewrite (Zfloor_eq (Z.of_nat (length r) - 1)) by lra.
  replace (Z.to_nat (Z.of_nat (length r) - 1)) with (length r - 1)%nat by lia.
  rewrite Nat.min_id, Nat.min_r by lia. ring.
Qed.

(** X11.  At the confidence levels 0 and 1 the value at risk of an asset is
    the smallest and the largest of its returns. *)
Theorem calculate_var_extremes (returns : frame R) (i : nat) (col : list R) :
  nth_error returns i = Some col -> col <> [] ->
  exists vars0 vars1 lo hi,
    calculate_var returns (Some 0) = Ok vars0
    /\ nth_error vars0 i = Some (Fin lo)
    /\ calculate_var returns (Some 1) = Ok vars1
    /\ nth_error vars1 i = Some (Fin hi)
    /\ In lo col /\ In hi col
    /\ forall r, In r col -> lo <= r <= hi.
Proof.
  intros Hi Hne.
  destruct (calculate_var_column returns 0 i col Hi Hne) as [vars0 [E0 N0]]; [lra|].
  destruct (calculate_var_column returns 1 i col Hi Hne) as [vars1 [E1 N1]]; [lra|].
  rewrite Rmult_0_l, interpolate_first in N0.
  rewrite Rmult_1_l, <- (Permutation_length (np_sort_perm col)) in N1.
  pose proof (np_sort_nonempty col Hne) as Hne'.
  rewrite (interpolate_last _ Hne') in N1.
  pose proof (np_sort_sorted col) as Hs.
  pose proof (np_sort_perm col) as Hp.
  set (r := np_sort col) in *.
  assert (Hn : (1 <= length r)%nat) by (destruct r; [congruence | simpl; lia]).
  exists vars0, vars1, (nth 0 r 0), (nth (length r - 1) r 0).
  repeat (split; [assumption|]).
  split; [apply (Permutation_in _ Hp), nth_In; lia|].
  split; [apply (Permutation_in _ Hp), nth_In; lia|].
  intros x Hx. apply (Permutation_in _ (Permutation_sym Hp)) in Hx.
  destruct (In_nth r x 0 Hx) as [t [Ht <-]].
  split; apply sorted_nth_le; (assumption || lia).
Qed.

Lemma calculate_var_extremes_witness :
  exists vars0 vars1 lo hi,
    calculate_var [[0.03; -0.02; 0.01]] (Some 0) = Ok vars0
    /\ nth_error vars0 0 = Some (Fin lo)
    /\ calculate_var [[0.03; -0.02; 0.01]] (Some 1) = Ok vars1
    /\ nth_error vars1 0 = Some (Fin hi)
    /\ In lo [0.03; -0.02; 0.01] /\ In hi [0.03; -0.02; 0.01]
    /\ forall r, In r [0.03; -0.02; 0.01] -> lo <= r <= hi.
Proof.
  apply (calculate_var_extremes [[0.03; -0.02; 0.01]] 0 [0.03; -0.02; 0.01]).
  - reflexivity.
  - discriminate.
Defined.

(** ** The performance curve *)

Lemma cumprod_from_length (acc : R) (l : list R) :
  length (cumprod_from acc l) = length l.
Proof.
  revert acc. induction l as [|a l IH]; intros acc; simpl; [|rewrite IH]; reflexivity.
Qed.

Lemma cumprod_from_positive (acc : R) (l : list R) :
  0 < acc -> Forall (fun a => 0 < a) l ->
  Forall (fun c => 0 < c) (cumprod_from acc l).
Proof.
  intros Hacc H. revert acc Hacc.
  induction H as [|a l Ha _ IH]; intros acc Hacc; simpl; constructor.
  - apply Rmult_lt_0_compat; assumption.
  - apply IH. apply Rmult_lt_0_compat; assumption.
Qed.

(** X12.  As long as no daily portfolio return is -100% or less, the
    cumulative performance curve has one value per date and stays strictly
    positive. *)
Theorem cumulative_returns_positive
    (returns : frame R) (w daily : list R) :
  portfolio_returns returns w = Ok daily ->
  Forall (fun r => -1 < r) daily ->
  exists curve,
    cumulative_returns returns w = Ok curve
    /\ length curve = length daily
    /\ Forall (fun c => 0 < c) curve.
Proof.
  intros Hd Hr. unfold cumulative_returns. rewrite Hd. cbn [bind].
  eexists. split; [reflexivity|]. split.
  - unfold cumprod. rewrite cumprod_from_length, length_map. reflexivity.
  - apply cumprod_from_positive; [lra|].
    rewrite Forall_map. apply Forall_impl with (2 := Hr). intros r Hgt. lra.
Qed.

Lemma daily_return_at (returns : frame R) (w : list R) (t : nat) :
  length w = length returns -> (t < nobs returns)%nat ->
  exists daily,
    portfolio_returns returns w = Ok daily
    /\ nth t daily 0 = Rsum (map2 (fun col k => nth t col 0 * k) returns w).
Proof.
  intros Hw Ht. unfold portfolio_returns, DataFrame_dot.
  rewrite Hw, Nat.eqb_refl. eexists. split; [reflexivity|].
  rewrite (nth_map_lt _ (seq 0 (nobs returns)) t 0%nat 0)
    by (rewrite length_seq; exact Ht).
  rewrite seq_nth by exact Ht. reflexivity.
Qed.

Lemma cumulative_returns_positive_witness :
  exists curve,
    cumulative_returns [[0.5; -0.5]] [1] = Ok curve
    /\ length curve = length [0.5 * 1 + 0; -0.5 * 1 + 0]
    /\ Forall (fun c => 0 < c) curve.
Proof.
  apply (cumulative_returns_positive [[0.5; -0.5]] [1] [0.5 * 1 + 0; -0.5 * 1 + 0]).
  - reflexivity.
  - repeat constructor; lra.
Defined.

Lemma weighted_sum_between (xs ws : list R) (lo hi : R) :
  length xs = length ws ->
  Forall (fun k => 0 <= k) ws ->
  Forall (fun v => lo <= v <= hi) xs ->
  lo * Rsum ws <= Rsum (map2 Rmult xs ws) <= hi * Rsum ws.
Proof.
  intros Hlen Hw. revert xs Hlen.
  induction Hw as [|k ws Hk _ IH]; intros [|v xs] Hlen Hx; simpl in *;
    try discriminate; [lra|].
  inversion Hx as [|? ? Hv Hxs]; subst.
  specialize (IH xs ltac:(lia) Hxs). nra.
Qed.

(** X13.  For long-only, fully invested weights (non-negative, summing
    to 1) the portfolio return of a date lies between the smallest and the
    largest asset return of that date. *)
Theorem portfolio_returns_between
    (returns : frame R) (w : list R) (t : nat) (lo hi : R) :
  length w = length returns -> (t < nobs returns)%nat ->
  Forall (fun k => 0 <= k) w -> Rsum w = 1 ->
  (forall col, In col returns -> lo <= nth t col 0 <= hi) ->
  exists daily,
    portfolio_returns returns w = Ok daily
    /\ lo <= nth t daily 0 <= hi.
Proof.
  intros Hw Ht Hpos Hsum Hb.
  destruct (daily_return_at returns w t Hw Ht) as [daily [Hd Hn]].
  exists daily. split; [exact Hd|]. rewrite Hn.
  rewrite <- (map2_map_l Rmult (fun col => nth t col 0)).
  pose proof (weighted_sum_between (map (fun col => nth t col 0) returns) w lo hi)
    as H.
  rewrite Hsum, !Rmult_1_r in H. apply H.
  - rewrite length_map. congruence.
  - exact Hpos.
  - rewrite Forall_map, Forall_forall. exact Hb.
Qed.

Lemma portfolio_returns_between_witness :
  exists daily,
    portfolio_returns [[0.01; 0.03]; [0.02; -0.01]] [0.25; 0.75] = Ok daily
    /\ -0.01 <= nth 1 daily 0 <= 0.03.
Proof.
  apply (portfolio_returns_between [[0.01; 0.03]; [0.02; -0.01]] [0.25; 0.75] 1).
  - reflexivity.
  - simpl. lia.
  - repeat constructor; lra.
  - simpl. lra.
  - intros col [<-|[<-|[]]]; simpl; lra.
Defined.

(** ** From prices to returns and back to the relative price *)

Lemma simple_returns_finite (rest m : list R) :
  Forall (fun p => p <> 0) m ->
  map2 (fun p q => fdiv (Fin (p - q)) (Fin q)) rest m
  = map Fin (map2 (fun p q => (p - q) / q) rest m).
Proof.
  intros Hm. revert rest. induction Hm as [|q m Hq _ IH]; intros [|p rest];
    simpl; trivial.
  rewrite IH. f_equal. exact (fdiv_fin (p - q) q Hq).
Qed.

Lemma nonzero_no_double_zero (ps : list R) :
  Forall (fun p => p <> 0) ps -> no_double_zero ps.
Proof.
  induction 1 as [|p ps Hp Hps IH]; simpl; trivial.
  destruct ps as [|q ps]; trivial.
  split; [intros [E _]; exact (Hp E) | exact IH].
Qed.

Lemma cumprod_telescopes (acc q0 : R) (rest : list R) :
  Forall (fun p => p <> 0) (q0 :: rest) ->
  cumprod_from acc
    (map (fun r => 1 + (r * 1 + 0))
         (map2 (fun p q => (p - q) / q) rest (q0 :: rest)))
  = map (fun p => acc * (p / q0)) rest.
Proof.
  revert acc q0. induction rest as [|p rest IH]; intros acc q0 H; simpl; trivial.
  inversion H as [|? ? Hq0 Hrest]; subst.
  pose proof (Forall_inv Hrest) as Hp. cbv beta in Hp.
  f_equal.
  - field. exact Hq0.
  - rewrite (IH _ p Hrest). apply map_ext. intros p'. field. split; assumption.
Qed.

(** X14.  For an asset whose prices are all defined and not zero, the
    cumulative performance curve of the portfolio holding only this asset,
    computed from the returns of [calculate_returns], is the price relative
    to the first price: [price[t] / price[0]] for every later date. *)
Theorem cumulative_returns_recover_prices
    (fm : option fill) (p0 : R) (rest : list R) :
  Forall (fun p => p <> 0) (p0 :: rest) ->
  exists rs,
    calculate_returns fm [map Some (p0 :: rest)] = Ok [map Fin rs]
    /\ cumulative_returns [rs] [1] = Ok (map (fun p => p / p0) rest).
Proof.
  intros Hnz. exists (map2 (fun p q => (p - q) / q) rest (p0 :: rest)). split.
  - unfold calculate_returns. f_equal.
    change [map Some (p0 :: rest)] with (map (map Some) [p0 :: rest]).
    rewrite dropna_defined.
    + cbn [map simple_returns]. f_equal. apply simple_returns_finite, Hnz.
    + intros c [<-|[]]. reflexivity.
    + constructor; [apply nonzero_no_double_zero, Hnz | constructor].
  - set (rs := map2 (fun p q => (p - q) / q) rest (p0 :: rest)).
    unfold cumulative_returns, portfolio_returns, DataFrame_dot.
    cbn [length Nat.eqb bind nobs]. f_equal.
    assert (E : map (fun t => Rsum (map2 (fun col w => nth t col 0 * w) [rs] [1]))
                    (seq 0 (length rs))
                = map (fun r => r * 1 + 0) rs).
    { rewrite <- (map_seq_nth rs 0) at 2. rewrite map_map. reflexivity. }
    rewrite E, map_map. unfold cumprod. subst rs.
    rewrite <- (map_map (fun r => r * 1 + 0) (fun r => 1 + r)), map_map.
    rewrite (cumprod_telescopes 1 p0 rest Hnz).
    apply map_ext. intros p. ring.
Qed.

Lemma cumulative_returns_recover_prices_witness :
  exists rs,
    calculate_returns None [map Some [100; 101; 98.98; 101.95]] = Ok [map Fin rs]
    /\ cumulative_returns [rs] [1]
       = Ok (map (fun p => p / 100) [101; 98.98; 101.95]).
Proof.
  apply (cumulative_returns_recover_prices None 100 [101; 98.98; 101.95]).
  repeat constructor; lra.
Defined.

(** ** The assessment of the metrics *)

Lemma fpositive_fin (v : R) : fpositive (Fin v) = true <-> 0 < v.
Proof. simpl. destruct (Rlt_dec 0 v); split; (discriminate || tauto). Qed.

Lemma fnegative_fin (v : R) : fnegative (Fin v) = true <-> v < 0.
Proof. simpl. destruct (Rlt_dec v 0); split; (discriminate || tauto). Qed.

(** X15.  With a positive volatility and a risk-free rate that is not
    negative, the assessment of the metrics only depends on the return and
    the rate: it is positive when the return exceeds the rate, negative when
    the return is below the rate, and no assessment is written when the two
    are equal. *)
Theorem metrics_assessment_by_excess_return (opt_return opt_std rate : R) :
  0 < opt_std -> 0 <= rate ->
  let opt_sharpe := sharpe_ratio (Fin opt_return) (Fin opt_std) rate in
  (rate < opt_return ->
     metrics_assessment (Fin opt_return) opt_sharpe = Some positive_results)
  /\ (opt_return < rate ->
     metrics_assessment (Fin opt_return) opt_sharpe = Some negative_results)
  /\ (opt_return = rate ->
     metrics_assessment (Fin opt_return) opt_sharpe = None).
Proof.
  intros Hstd Hrate opt_sharpe.
  assert (Hinv : 0 < / opt_std) by (apply Rinv_0_lt_compat; exact Hstd).
  assert (E : opt_sharpe = Fin ((opt_return - rate) / opt_std)).
  { subst opt_sharpe. unfold sharpe_ratio. cbn [fsub fneg fadd].
    apply fdiv_fin. lra. }
  rewrite E. unfold metrics_assessment, Rdiv.
  split; [|split]; intros H.
  - assert (P1 : fpositive (Fin opt_return) = true) by (apply fpositive_fin; lra).
    assert (P2 : fpositive (Fin ((opt_return - rate) * / opt_std)) = true)
      by (apply fpositive_fin; nra).
    rewrite P1, P2. reflexivity.
  - assert (P2 : fpositive (Fin ((opt_return - rate) * / opt_std)) = false).
    { apply not_true_is_false. rewrite fpositive_fin. nra. }
    assert (N2 : fnegative (Fin ((opt_return - rate) * / opt_std)) = true)
      by (apply fnegative_fin; nra).
    rewrite P2, N2, andb_false_r, orb_true_r. reflexivity.
  - assert (P2 : fpositive (Fin ((opt_return - rate) * / opt_std)) = false).
    { apply not_true_is_false. rewrite fpositive_fin. nra. }
    assert (N1 : fnegative (Fin opt_return) = false).
    { apply not_true_is_false. rewrite fnegative_fin. lra. }
    assert (N2 : fnegative (Fin ((opt_return - rate) * / opt_std)) = false).
    { apply not_true_is_false. rewrite fnegative_fin. nra. }
    rewrite P2, N1, N2, andb_false_r. reflexivity.
Qed.

Lemma metrics_assessment_by_excess_return_witness :
  (0.01 < 5.04 ->
     metrics_assessment (Fin 5.04) (sharpe_ratio (Fin 5.04) (Fin 0.2) 0.01)
     = Some positive_results)
  /\ (5.04 < 0.01 ->
     metrics_assessment (Fin 5.04) (sharpe_ratio (Fin 5.04) (Fin 0.2) 0.01)
     = Some negative_results)
  /\ (5.04 = 0.01 ->
     metrics_assessment (Fin 5.04) (sharpe_ratio (Fin 5.04) (Fin 0.2) 0.01) = None).
Proof.
  apply (metrics_assessment_by_excess_return 5.04 0.2 0.01); lra.
Defined.

(** ** The slider *)

(** X16.  The slider gives the risk-free rate in percent: when its value
    is 100 times the configured rate (as for the initial value 1.0 and the
    rate 0.01), the adjusted Sharpe ratio of line 146 is the Sharpe ratio of
    line 54, whatever the solver returned. *)
Theorem opt_sharpe_adjusted_at_configured_rate
    (slsqp : (list R -> result fval) -> list R -> list (R * R) -> constraint ->
             OptimizeResult)
    (cfg : Config) (returns : frame R) :
  risk_free_rate_slider cfg = 100 * risk_free_rate cfg ->
  opt_sharpe_adjusted slsqp cfg returns = opt_sharpe slsqp cfg returns.
Proof.
  intros H. unfold opt_sharpe_adjusted, opt_sharpe. rewrite H.
  replace (100 * risk_free_rate cfg / 100) with (risk_free_rate cfg) by field.
  reflexivity.
Qed.

Lemma opt_sharpe_adjusted_at_configured_rate_witness :
  opt_sharpe_adjusted iteration_limit_reached
    {| risk_free_rate := 0.01; risk_free_rate_slider := 1.0 |} [[0.01; 0.03]]
  = opt_sharpe iteration_limit_reached
      {| risk_free_rate := 0.01; risk_free_rate_slider := 1.0 |} [[0.01; 0.03]].
Proof.
  apply opt_sharpe_adjusted_at_configured_rate. simpl. lra.
Defined.
